(** * Merkle tree of the Boiler Blockchain course: model and verification

    A shallow embedding of [merkle_tree.cpp]: the node structure, the
    hashing helpers, [build_merkle_tree], [generate_merkle_proof] and
    [verify], followed by the properties of the specification.

    Conventions of the model.
    - The free store is a list of nodes; the address of a node is its
      allocation index and [None] is [nullptr].  [new MerkleNode(h)]
      appends a node.
    - [std::hash<std::string>] is implementation-defined: it is a Section
      variable [hasher].  [fnv1a64] is the concrete instance used to
      evaluate the program.
    - [std::string] comparison is lexicographic on unsigned bytes, as
      [String.compare] is.
    - [size_t] is 64 bits wide and [int] is 32 bits wide.
    - [cout] is the list of the lines written, one per [endl];
      [displayTree] and [main] return the lines they write.
    - A call returns, throws (no statement of the program does), has
      undefined behaviour, or exhausts the loop bound of the model. *)

From Stdlib Require Import ZArith NArith Lia DecimalString DecimalN.
From stdpp Require Import base list strings.

(** ** Outcomes of a call *)

Inductive fault : Type :=
| NullDeref        (* reading through nullptr *)
| Dangling         (* reading through an address that holds no node *)
| OutOfRange       (* vector element access past the end *)
| SignedOverflow.  (* int incremented past INT_MAX *)

Inductive outcome (A : Type) : Type :=
| Returns (a : A)
| Throws (what : string)
| Undefined (why : fault)
| OutOfFuel.

Arguments Returns {A} a.
Arguments Throws {A} what.
Arguments Undefined {A} why.
Arguments OutOfFuel {A}.

#[export] Instance outcome_ret : MRet outcome := fun A a => Returns a.

#[export] Instance outcome_bind : MBind outcome := fun A B f m =>
  match m with
  | Returns a => f a
  | Throws w => Throws w
  | Undefined u => Undefined u
  | OutOfFuel => OutOfFuel
  end.

(** ** Data model *)

Abbreviation ptr := (option nat).

(** [struct MerkleNode] *)
Record MerkleNode : Type := mkNode {
  hash : string;
  left : ptr;
  right : ptr;
  parent : ptr
}.

(** The constructor [MerkleNode(string h)]. *)
Definition MerkleNode_new (h : string) : MerkleNode :=
  mkNode h None None None.

Abbreviation store := (list MerkleNode).

(** [new MerkleNode(h)]: the node is placed at the next free address. *)
Definition new_node (h : string) (heap : store) : store * nat :=
  (heap ++ [MerkleNode_new h], length heap).

(** [p->field] for reading. *)
Definition deref (heap : store) (p : ptr) : outcome MerkleNode :=
  match p with
  | None => Undefined NullDeref
  | Some a =>
      match heap !! a with
      | Some n => Returns n
      | None => Undefined Dangling
      end
  end.

Definition set_left (v : ptr) (n : MerkleNode) : MerkleNode :=
  mkNode (hash n) v (right n) (parent n).
Definition set_right (v : ptr) (n : MerkleNode) : MerkleNode :=
  mkNode (hash n) (left n) v (parent n).
Definition set_parent (v : ptr) (n : MerkleNode) : MerkleNode :=
  mkNode (hash n) (left n) (right n) v.

(** [a->field = v] on an allocated address. *)
Definition update (a : nat) (f : MerkleNode -> MerkleNode) (heap : store) : store :=
  match heap !! a with
  | Some n => <[a := f n]> heap
  | None => heap
  end.

(** ** Machine integers *)

Definition SIZE_WIDTH : Z := 64%Z.
Definition INT_MAX : Z := 2147483647%Z.

(** Unsigned subtraction on [size_t]. *)
Definition size_t_sub (a b : Z) : Z := ((a - b) mod 2 ^ SIZE_WIDTH)%Z.

(** [v.size()] *)
Definition size {A : Type} (v : list A) : Z := Z.of_nat (length v).

(** ** Hashing *)

(** [std::to_string] of an unsigned value: its decimal digits. *)
Definition to_string (n : N) : string :=
  NilEmpty.string_of_uint (N.to_uint n).

(** FNV-1a on 64 bits, a hash of byte strings that standard libraries use
    for [std::hash<std::string>]. *)
Definition fnv_offset_basis : N := 14695981039346656037%N.
Definition fnv_prime : N := 1099511628211%N.

Fixpoint fnv1a64_from (h : N) (s : string) : N :=
  match s with
  | EmptyString => h
  | String c rest =>
      fnv1a64_from ((N.lxor h (Ascii.N_of_ascii c) * fnv_prime) mod 2 ^ 64)%N rest
  end.

Definition fnv1a64 (s : string) : N := fnv1a64_from fnv_offset_basis s.

(** ** Inputs on which the program is evaluated *)

(** The blocks of [main]. *)
Definition main_data_blocks : list string :=
  ["Soham is goated"; "Adithya is kinda lame"; "another example data block";
   "boom"]%string.

Definition abc_blocks : list string := ["A"; "B"; "C"]%string.




(** A store that holds a root over two leaves with the digests 1 and 2. *)
Definition leaf_one : MerkleNode := mkNode "1" None None (Some 2).
Definition leaf_two : MerkleNode := mkNode "2" None None (Some 2).
Definition root_one_two : MerkleNode :=
  mkNode (to_string (fnv1a64 "12")) (Some 0) (Some 1) None.
Definition small_store : store := [leaf_one; leaf_two; root_one_two].

(** A store that holds a root over two leaves with the digests 12 and
    121. *)
Definition leaf_12 : MerkleNode := mkNode "12" None None (Some 2).
Definition leaf_121 : MerkleNode := mkNode "121" None None (Some 2).
Definition root_12_121 : MerkleNode :=
  mkNode (to_string (fnv1a64 "12121")) (Some 0) (Some 1) None.
Definition resplit_store : store := [leaf_12; leaf_121; root_12_121].

Section Merkle.

(** [std::hash<std::string>()(s)] *)
Variable hasher : string -> N.

Definition simple_hash (data : string) : string :=
  to_string (hasher data).

Definition combine_hashes (left_hash right_hash : string) : string :=
  to_string (hasher (left_hash +:+ right_hash)).

(** ** build_merkle_tree *)

(** Step 1: [while ((size & (size - 1)) != 0) push_back("_")]. *)
Fixpoint pad_loop (fuel : nat) (data_blocks : list string) : outcome (list string) :=
  if negb (Z.land (size data_blocks) (size_t_sub (size data_blocks) 1) =? 0)%Z
  then match fuel with
       | O => OutOfFuel
       | S fuel' => pad_loop fuel' (data_blocks ++ ["_"%string])
       end
  else Returns data_blocks.

(** Step 2, first loop: [for (int i = 0; i < size; i++)] creating one leaf
    per block.  [rest] is the part of [data_blocks] from index [i] on. *)
Fixpoint leaf_loop (i : Z) (rest : list string) (heap : store) (nodes : list nat)
  : outcome (store * list nat) :=
  match rest with
  | [] => Returns (heap, nodes)
  | block :: rest' =>
      let '(heap', a) := new_node (simple_hash block) heap in
      if (INT_MAX <? i + 1)%Z then Undefined SignedOverflow
      else leaf_loop (i + 1)%Z rest' heap' (nodes ++ [a])
  end.

(** One iteration of [while (nodes.size() > 1)] on the two front nodes. *)
Definition reduce_step (heap : store) (l r : nat) : outcome (store * nat) :=
  ln ← deref heap (Some l);
  rn ← deref heap (Some r);
  let parent_hash := combine_hashes (hash ln) (hash rn) in
  let '(heap1, p) := new_node parent_hash heap in
  let heap2 := update p (set_left (Some l)) heap1 in
  let heap3 := update p (set_right (Some r)) heap2 in
  let heap4 := update l (set_parent (Some p)) heap3 in
  let heap5 := update r (set_parent (Some p)) heap4 in
  Returns (heap5, p).

(** Step 2, second loop: the two front nodes are erased and their new
    parent is pushed at the back. *)
Fixpoint reduce_loop (fuel : nat) (heap : store) (nodes : list nat)
  : outcome (store * list nat) :=
  match nodes with
  | l :: r :: rest =>
      match fuel with
      | O => OutOfFuel
      | S fuel' =>
          '(heap', p) ← reduce_step heap l r;
          reduce_loop fuel' heap' (rest ++ [p])
      end
  | _ => Returns (heap, nodes)
  end.

(** The whole function, on an empty free store.  It returns the store it
    has filled and the root pointer [nodes[0]]. *)
Definition build_merkle_tree (data_blocks : list string) : outcome (store * ptr) :=
  padded ← pad_loop (length data_blocks) data_blocks;
  '(heap, nodes) ← leaf_loop 0%Z padded [] [];
  '(heap', nodes') ← reduce_loop (length nodes) heap nodes;
  match nodes' with
  | [] => Undefined OutOfRange
  | root :: _ => Returns (heap', Some root)
  end.

(** ** generate_merkle_proof *)

(** [while (newNode->parent != nullptr)] *)
Fixpoint proof_loop (fuel : nat) (heap : store) (newNode : ptr) (proof : list string)
  : outcome (list string) :=
  n ← deref heap newNode;
  match parent n with
  | None => Returns proof
  | Some _ =>
      match fuel with
      | O => OutOfFuel
      | S fuel' =>
          pn ← deref heap (parent n);
          let sibling := if decide (left pn = newNode) then right pn else left pn in
          sn ← deref heap sibling;
          proof_loop fuel' heap (parent n) (proof ++ [hash sn])
      end
  end.

Definition generate_merkle_proof (heap : store) (root leaf : ptr) : outcome (list string) :=
  proof_loop (length heap) heap leaf [].

(** ** verify *)

(** The body of [for (const string &sibling_hash : merkle_proof)]. *)
Definition verify_step (current_hash sibling_hash : string) : string :=
  if (current_hash <? sibling_hash)%string
  then combine_hashes current_hash sibling_hash
  else combine_hashes sibling_hash current_hash.

Fixpoint verify_loop (current_hash : string) (merkle_proof : list string) : string :=
  match merkle_proof with
  | [] => current_hash
  | sibling_hash :: rest => verify_loop (verify_step current_hash sibling_hash) rest
  end.

Definition verify (heap : store) (root leaf : ptr) (merkle_proof : list string)
  : outcome bool :=
  ln ← deref heap leaf;
  let current_hash := verify_loop (hash ln) merkle_proof in
  rn ← deref heap root;
  if negb (String.eqb current_hash (hash rn)) then Returns false else Returns true.

(** ** Notions used to state the properties *)

(** The specification's wording of the combination rule of [verify]: the
    lexicographically smaller digest is the left argument of
    [combine_hashes] and the larger one the right argument. *)
Definition lex_smaller (a b : string) : string :=
  if (a <=? b)%string then a else b.
Definition lex_larger (a b : string) : string :=
  if (a <=? b)%string then b else a.
Definition spec_combine (current sibling : string) : string :=
  combine_hashes (lex_smaller current sibling) (lex_larger current sibling).
Definition spec_verify (rootHash leafHash : string) (proof : list string) : bool :=
  String.eqb (fold_left spec_combine proof leafHash) rootHash.

(** A node without children. *)
Definition is_leaf (n : MerkleNode) : bool :=
  bool_decide (left n = None) && bool_decide (right n = None).

(** The subtree at [a] is a perfect binary tree of height [d]: all its
    leaves are exactly [d] child links below [a]. *)
Fixpoint is_perfect (heap : store) (d : nat) (a : ptr) : bool :=
  match a with
  | None => false
  | Some x =>
      match heap !! x with
      | None => false
      | Some n =>
          match d with
          | O => is_leaf n
          | S d' => is_perfect heap d' (left n) && is_perfect heap d' (right n)
          end
      end
  end.

(** The addresses of the nodes of the subtree of height [d] at [a], the
    top node first, then the left and the right subtree. *)
Fixpoint subtree_nodes (heap : store) (d : nat) (a : ptr) : list nat :=
  match a with
  | None => []
  | Some x =>
      match heap !! x with
      | None => []
      | Some n =>
          match d with
          | O => [x]
          | S d' =>
              x :: subtree_nodes heap d' (left n) ++ subtree_nodes heap d' (right n)
          end
      end
  end.

(** The node reached from [a] by following [i] parent links. *)
Fixpoint ancestor (heap : store) (i : nat) (a : nat) : option nat :=
  match i with
  | O => Some a
  | S i' => n ← heap !! a; pa ← parent n; ancestor heap i' pa
  end.

(** The hash of the other child of the parent of [a]. *)
Definition sibling_hash (heap : store) (a : nat) : option string :=
  n ← heap !! a;
  pa ← parent n;
  pn ← heap !! pa;
  s ← (if decide (left pn = Some a) then right pn else left pn);
  sn ← heap !! s;
  Some (hash sn).




(** The store after [i] iterations of the reduction over [p] leaves, with
    addresses in allocation order: the leaves are [0 .. p-1], iteration [t]
    allocates [p + t] as the parent of [2t] and [2t + 1], and the nodes
    below [2i] are the ones that have been given a parent so far. *)
Definition reduced (p i : nat) (heap : store) : Prop :=
  length heap = p + i /\
  forall j n, heap !! j = Some n ->
    parent n = (if decide (j < 2 * i) then Some (p + j / 2) else None)
    /\ (j < p -> left n = None /\ right n = None)
    /\ (p <= j ->
        left n = Some (2 * (j - p)) /\ right n = Some (S (2 * (j - p)))
        /\ exists ln rn,
            heap !! (2 * (j - p)) = Some ln /\ heap !! S (2 * (j - p)) = Some rn
            /\ hash n = combine_hashes (hash ln) (hash rn)).

(** In a store reduced over [2 ^ k] leaves, the node [a] is the [m]-th
    node of the level that has [2 ^ e] nodes: the levels are laid out one
    after the other, the leaves first and the root last. *)
Definition at_level (k e m a : nat) : Prop :=
  m < 2 ^ e /\ a + 2 * 2 ^ e = 2 * 2 ^ k + m.

(** ** displayTree and main *)

(** The output stream is the list of the lines written, each one being the
    text sent to [cout] up to an [endl]. *)

(** [for (int i = 0; i < level; ++i) cout << "    "] *)
Fixpoint indentation (level : nat) : string :=
  match level with
  | O => ""
  | S level' => "    " +:+ indentation level'
  end.

(** The line of one node: the indentation, the marker and the hash. *)
Definition tree_line (level : Z) (h : string) : string :=
  indentation (Z.to_nat level) +:+ "|-- " +:+ h.

(** [displayTree(node, level)]: nothing for [nullptr]; otherwise the line
    of the node and, when it has a child, both subtrees one level deeper. *)
Fixpoint displayTree_rec (fuel : nat) (heap : store) (node : ptr) (level : Z)
  : outcome (list string) :=
  match node with
  | None => Returns []
  | Some _ =>
      match fuel with
      | O => OutOfFuel
      | S fuel' =>
          n ← deref heap node;
          let line := tree_line level (hash n) in
          if bool_decide (left n <> None) || bool_decide (right n <> None)
          then
            if (INT_MAX <? level + 1)%Z then Undefined SignedOverflow
            else
              shown_left ← displayTree_rec fuel' heap (left n) (level + 1)%Z;
              shown_right ← displayTree_rec fuel' heap (right n) (level + 1)%Z;
              Returns (line :: shown_left ++ shown_right)
          else Returns [line]
      end
  end.

Definition displayTree (heap : store) (node : ptr) (level : Z)
  : outcome (list string) :=
  displayTree_rec (length heap) heap node level.

(** [main]: the lines written and the exit status. *)
Definition main : outcome (list string * Z) :=
  '(heap, root) ← build_merkle_tree main_data_blocks;
  shown ← displayTree heap root 0%Z;
  Returns ("Merkle Tree:"%string :: shown, 0%Z).

(** ** Further notions *)

(** The hashes of the nodes [d] child links below [a], from left to right. *)
Fixpoint frontier (heap : store) (d : nat) (a : ptr) : list string :=
  match a with
  | None => []
  | Some x =>
      match heap !! x with
      | None => []
      | Some n =>
          match d with
          | O => [hash n]
          | S d' => frontier heap d' (left n) ++ frontier heap d' (right n)
          end
      end
  end.

(** The digest of [2 ^ d] digests by halving: the two halves are digested
    and the results combined, left half first. *)
Fixpoint merkle_root (d : nat) (digests : list string) : string :=
  match d with
  | O => default ""%string (head digests)
  | S d' =>
      combine_hashes (merkle_root d' (take (2 ^ d') digests))
                     (merkle_root d' (drop (2 ^ d') digests))
  end.

(** The left child of [n] does not compare larger than the right child. *)
Definition pair_ordered (heap : store) (n : MerkleNode) : bool :=
  match left n, right n with
  | Some l, Some r =>
      match heap !! l, heap !! r with
      | Some ln, Some rn => negb (hash rn <? hash ln)%string
      | _, _ => true
      end
  | _, _ => true
  end.

Definition ordered_pairs (heap : store) : bool :=
  forallb (pair_ordered heap) heap.

(** The line starts with the indentation of [depth] levels. *)
Definition indented (depth : nat) (line : string) : bool :=
  String.prefix (indentation depth) line.

(** ** verify *)

Lemma ltb_leb (a b : string) : (a <? b)%string = true -> (a <=? b)%string = true.
Proof.
  unfold String.ltb, String.leb. destruct (String.compare a b); congruence.
Qed.

Lemma ltb_false_cases (a b : string) :
  (a <? b)%string = false -> a = b \/ (a <=? b)%string = false.
Proof.
  unfold String.ltb, String.leb.
  destruct (String.compare a b) eqn:E; try congruence.
  - left. by apply String.compare_eq_iff.
  - by right.
Qed.

Lemma leb_refl (a : string) : (a <=? a)%string = true.
Proof. destruct (String.leb_total a a); done. Qed.

Lemma ltb_asym (a b : string) : (a <? b)%string = true -> (b <? a)%string = false.
Proof.
  unfold String.ltb. rewrite (String.compare_antisym b a).
  destruct (String.compare a b); simpl; congruence.
Qed.

Lemma ltb_total (a b : string) :
  (a <? b)%string = false -> (b <? a)%string = false -> a = b.
Proof.
  unfold String.ltb. rewrite (String.compare_antisym b a).
  destruct (String.compare a b) eqn:E; simpl; try congruence.
  intros _ _. by apply String.compare_eq_iff.
Qed.

Lemma verify_step_spec (c s : string) : verify_step c s = spec_combine c s.
Proof.
  unfold verify_step, spec_combine, lex_smaller, lex_larger.
  destruct (c <? s)%string eqn:E.
  - by rewrite (ltb_leb _ _ E).
  - destruct (ltb_false_cases _ _ E) as [-> | ->]; [by rewrite leb_refl | done].
Qed.

Lemma verify_loop_fold (c : string) (proof : list string) :
  verify_loop c proof = fold_left spec_combine proof c.
Proof.
  revert c. induction proof as [|s proof IH]; intros c; simpl; [done|].
  by rewrite IH, verify_step_spec.
Qed.


Lemma verify_step_comm (a b : string) : verify_step a b = verify_step b a.
Proof.
  unfold verify_step.
  destruct (a <? b)%string eqn:Eab.
  - by rewrite (ltb_asym _ _ Eab).
  - destruct (b <? a)%string eqn:Eba; [done|].
    by rewrite (ltb_total _ _ Eab Eba).
Qed.

Lemma verify_returns (heap : store) (root leaf : nat) (rn ln : MerkleNode)
    (proof : list string) :
  heap !! root = Some rn -> heap !! leaf = Some ln ->
  verify heap (Some root) (Some leaf) proof
  = Returns (String.eqb (verify_loop (hash ln) proof) (hash rn)).
Proof.
  intros Hr Hl. unfold verify. simpl. rewrite Hl. simpl. rewrite Hr. simpl.
  by destruct (String.eqb _ _).
Qed.

(** C5: [verify] starts from the leaf's hash, combines it with the proof
    entries in order, each time with the lexicographically smaller digest
    as left argument of [combine_hashes] and the larger as right argument,
    and returns true exactly when the final digest is the root's hash. *)
Theorem verify_follows_spec (heap : store) (root leaf : nat) (rn ln : MerkleNode)
    (proof : list string) :
  heap !! root = Some rn -> heap !! leaf = Some ln ->
  verify heap (Some root) (Some leaf) proof
    = Returns (spec_verify (hash rn) (hash ln) proof)
  /\ (verify heap (Some root) (Some leaf) proof = Returns true
      <-> fold_left spec_combine proof (hash ln) = hash rn).
Proof.
  intros Hr Hl. rewrite (verify_returns _ _ _ _ _ _ Hr Hl).
  unfold spec_verify. rewrite verify_loop_fold. split; [done|].
  split.
  - intros [= H]. by apply String.eqb_eq.
  - intros H. f_equal. by apply String.eqb_eq.
Qed.

(** C7: on a root and a leaf that are nodes, [verify] returns a boolean
    for every proof list (it neither throws nor is undefined), and for the
    empty proof it returns true exactly when the two hashes are equal. *)
Theorem verify_total (heap : store) (root leaf : nat) (rn ln : MerkleNode)
    (proof : list string) :
  heap !! root = Some rn -> heap !! leaf = Some ln ->
  (exists b : bool, verify heap (Some root) (Some leaf) proof = Returns b)
  /\ (verify heap (Some root) (Some leaf) [] = Returns true
      <-> hash ln = hash rn).
Proof.
  intros Hr Hl. rewrite !(verify_returns _ _ _ _ _ _ Hr Hl). split.
  - eauto.
  - simpl. split.
    + intros [= H]. by apply String.eqb_eq.
    + intros H. f_equal. by apply String.eqb_eq.
Qed.

(** C10: [verify] gives the same answer when the leaf hash and the first
    proof entry are exchanged. *)
Theorem verify_first_entry_symmetric (heap : store) (root la lb : nat)
    (rn na nb : MerkleNode) (tail : list string) :
  heap !! root = Some rn -> heap !! la = Some na -> heap !! lb = Some nb ->
  verify heap (Some root) (Some la) (hash nb :: tail)
  = verify heap (Some root) (Some lb) (hash na :: tail).
Proof.
  intros Hr Ha Hb.
  rewrite (verify_returns _ _ _ _ _ _ Hr Ha), (verify_returns _ _ _ _ _ _ Hr Hb).
  simpl. by rewrite verify_step_comm.
Qed.

(** ** Padding *)

Lemma land_pred_pow2 (k : Z) : (0 <= k)%Z -> Z.land (2 ^ k) (2 ^ k - 1) = 0%Z.
Proof.
  intros Hk. rewrite Z.sub_1_r, <- Z.ones_equiv, Z.land_ones by done.
  apply Z.mod_same. pose proof (Z.pow_pos_nonneg 2 k). lia.
Qed.

Lemma land_pred_between (n k : Z) :
  (0 <= k)%Z -> (2 ^ k < n < 2 ^ (k + 1))%Z -> Z.land n (n - 1) <> 0%Z.
Proof.
  intros Hk Hn Hland.
  assert (Z.log2 n = k) as Hn' by (apply Z.log2_unique; lia).
  assert (Z.log2 (n - 1) = k) as Hm' by (apply Z.log2_unique; lia).
  assert (0 < 2 ^ k)%Z by (apply Z.pow_pos_nonneg; lia).
  pose proof (Z.bit_log2 n ltac:(lia)) as Bn.
  pose proof (Z.bit_log2 (n - 1) ltac:(lia)) as Bm.
  rewrite Hn' in Bn. rewrite Hm' in Bm.
  pose proof (Z.land_spec n (n - 1) k) as Hs.
  rewrite Hland, Bn, Bm, Z.bits_0 in Hs. done.
Qed.

Lemma size_t_pred (n : Z) : (1 <= n < 2 ^ 64)%Z -> size_t_sub n 1 = (n - 1)%Z.
Proof. intros Hn. unfold size_t_sub, SIZE_WIDTH. apply Z.mod_small. lia. Qed.

Lemma pad_loop_unfold (fuel : nat) (data_blocks : list string) :
  pad_loop fuel data_blocks
  = if negb (Z.land (size data_blocks) (size_t_sub (size data_blocks) 1) =? 0)%Z
    then match fuel with
         | O => OutOfFuel
         | S fuel' => pad_loop fuel' (data_blocks ++ ["_"%string])
         end
    else Returns data_blocks.
Proof. by destruct fuel. Qed.

Lemma size_app_one (bs : list string) (b : string) :
  size (bs ++ [b]) = (size bs + 1)%Z.
Proof. unfold size. rewrite length_app. simpl. lia. Qed.

Lemma pow2_bound (k : Z) : (0 <= k <= 63)%Z -> (2 ^ k <= 2 ^ 63)%Z.
Proof. intros Hk. apply Z.pow_le_mono_r; lia. Qed.

(** The loop stops at the power of two [2 ^ k] that the size lies just
    below, after appending the missing [d] sentinel blocks. *)
Lemma pad_loop_run (d : nat) : forall (fuel : nat) (bs : list string) (k : Z),
  (0 <= k <= 63)%Z -> (1 <= size bs <= 2 ^ k)%Z ->
  (k = 0 \/ 2 ^ (k - 1) < size bs)%Z ->
  Z.to_nat (2 ^ k - size bs) = d -> d <= fuel ->
  pad_loop fuel bs = Returns (bs ++ replicate d "_"%string).
Proof.
  induction d as [|d IH]; intros fuel bs k Hk Hn Hlow Hd Hfuel.
  - assert (size bs = 2 ^ k)%Z as Hpow by lia.
    pose proof (pow2_bound k Hk).
    rewrite pad_loop_unfold, size_t_pred, Hpow, land_pred_pow2 by lia.
    simpl. by rewrite app_nil_r.
  - assert (size bs < 2 ^ k)%Z as Hlt by lia.
    destruct Hlow as [-> | Hlow]; [simpl in Hlt; lia|].
    assert (1 <= k)%Z as Hk1.
    { destruct (decide (k = 0%Z)) as [-> |]; [simpl in Hlt; lia | lia]. }
    pose proof (pow2_bound k Hk).
    rewrite pad_loop_unfold, size_t_pred by lia.
    assert (Z.land (size bs) (size bs - 1) <> 0)%Z as Hland.
    { apply (land_pred_between _ (k - 1)); [lia|].
      replace (k - 1 + 1)%Z with k by lia. lia. }
    apply Z.eqb_neq in Hland. rewrite Hland. simpl.
    destruct fuel as [|fuel]; [lia|].
    rewrite (IH fuel (bs ++ ["_"%string]) k); rewrite ?size_app_one; try lia.
    by rewrite <- app_assoc.
Qed.

Lemma pow2_minimal (n : Z) (k j : Z) :
  (0 <= j)%Z -> (k = 0 \/ 2 ^ (k - 1) < n)%Z -> (0 <= k)%Z -> (n <= 2 ^ j)%Z ->
  (2 ^ k <= 2 ^ j)%Z.
Proof.
  intros Hj [-> | Hlow] Hk Hn.
  - simpl. pose proof (Z.pow_pos_nonneg 2 j). lia.
  - apply Z.pow_le_mono_r; [lia|].
    destruct (decide (k <= j)%Z) as [|Hgt]; [done|].
    assert (2 ^ j <= 2 ^ (k - 1))%Z by (apply Z.pow_le_mono_r; lia). lia.
Qed.

(** What the padding step does on [1 <= n <= 2 ^ 63] blocks. *)
Lemma pad_loop_spec (bs : list string) :
  (1 <= size bs <= 2 ^ 63)%Z ->
  exists k : nat,
    pad_loop (length bs) bs
    = Returns (bs ++ replicate (Z.to_nat (2 ^ Z.of_nat k - size bs)) "_"%string)
    /\ (size bs <= 2 ^ Z.of_nat k <= 2 ^ 63)%Z
    /\ (Z.of_nat k = 0 \/ 2 ^ (Z.of_nat k - 1) < size bs)%Z.
Proof.
  intros Hn.
  destruct (decide (size bs = 1%Z)) as [H1|H1].
  - exists 0. change (Z.of_nat 0) with 0%Z. change (2 ^ 0)%Z with 1%Z.
    split; [|split; [lia | by left]].
    rewrite H1. apply (pad_loop_run 0 _ bs 0%Z);
      change (2 ^ 0)%Z with 1%Z; auto; lia.
  - pose proof (Z.log2_up_spec (size bs) ltac:(lia)) as [Hlo Hhi].
    assert (0 < Z.log2_up (size bs))%Z as Hpos by (apply Z.log2_up_pos; lia).
    assert (Z.log2_up (size bs) <= 63)%Z as H63.
    { replace 63%Z with (Z.log2_up (2 ^ 63)) by (by rewrite Z.log2_up_pow2).
      apply Z.log2_up_le_mono. lia. }
    exists (Z.to_nat (Z.log2_up (size bs))).
    rewrite Z2Nat.id by lia. rewrite <- Z.sub_1_r in Hlo.
    pose proof (pow2_bound (Z.log2_up (size bs)) ltac:(lia)).
    split; [|split; [lia | by right]].
    apply (pad_loop_run _ _ _ (Z.log2_up (size bs))); try lia.
    assert (2 ^ Z.log2_up (size bs) = 2 * 2 ^ (Z.log2_up (size bs) - 1))%Z as Hdbl.
    { rewrite <- Z.pow_succ_r by lia. f_equal. lia. }
    unfold size in *. lia.
Qed.

(** C3: on [n >= 1] blocks the padding step appends the sentinel block
    until the count is the smallest power of two that is at least [n], and
    appends nothing when [n] is a power of two already. *)
Theorem padding_to_power_of_two (bs : list string) :
  (1 <= size bs <= 2 ^ 63)%Z ->
  exists (k : nat) (padded : list string),
    pad_loop (length bs) bs = Returns padded
    /\ padded = bs ++ replicate (Z.to_nat (2 ^ Z.of_nat k - size bs)) "_"%string
    /\ size padded = (2 ^ Z.of_nat k)%Z
    /\ (size bs <= 2 ^ Z.of_nat k)%Z
    /\ (forall j : Z, (0 <= j)%Z -> (size bs <= 2 ^ j)%Z ->
        (2 ^ Z.of_nat k <= 2 ^ j)%Z)
    /\ ((exists j : Z, (0 <= j)%Z /\ size bs = (2 ^ j)%Z) -> padded = bs).
Proof.
  intros Hn. destruct (pad_loop_spec bs Hn) as (k & Hrun & Hp & Hlow).
  exists k, (bs ++ replicate (Z.to_nat (2 ^ Z.of_nat k - size bs)) "_"%string).
  split; [done|]. split; [done|]. split.
  { unfold size in *. rewrite length_app, length_replicate. lia. }
  split; [lia|]. split.
  - intros j Hj Hle. apply (pow2_minimal (size bs)); auto; lia.
  - intros (j & Hj & Hpow).
    assert (2 ^ Z.of_nat k <= 2 ^ j)%Z
      by (apply (pow2_minimal (size bs)); auto; lia).
    replace (Z.to_nat _) with 0 by lia. simpl. by rewrite app_nil_r.
Qed.

(** ** The free store *)

Lemma update_length (a : nat) (f : MerkleNode -> MerkleNode) (heap : store) :
  length (update a f heap) = length heap.
Proof. unfold update. destruct (heap !! a); [apply length_insert | done]. Qed.

Lemma update_lookup (a : nat) (f : MerkleNode -> MerkleNode) (heap : store) (j : nat) :
  update a f heap !! j = if decide (j = a) then f <$> heap !! a else heap !! j.
Proof.
  unfold update. destruct (heap !! a) as [n|] eqn:Ha.
  - destruct (decide (j = a)) as [-> | Hne].
    + rewrite list_lookup_insert_eq; [done|]. by eapply lookup_lt_Some.
    + by rewrite list_lookup_insert_ne.
  - by destruct (decide (j = a)) as [-> | Hne].
Qed.

(** One iteration of the reduction allocates the parent at the next free
    address, links it to both children and changes nothing else. *)
Lemma reduce_step_spec (heap : store) (l r : nat) (ln rn : MerkleNode) :
  heap !! l = Some ln -> heap !! r = Some rn -> l <> r ->
  exists heap',
    reduce_step heap l r = Returns (heap', length heap)
    /\ length heap' = S (length heap)
    /\ forall j,
        heap' !! j =
        if decide (j = length heap)
        then Some (mkNode (combine_hashes (hash ln) (hash rn)) (Some l) (Some r) None)
        else if decide (j = l \/ j = r)
             then set_parent (Some (length heap)) <$> heap !! j
             else heap !! j.
Proof.
  intros Hl Hr Hne.
  pose proof (lookup_lt_Some _ _ _ Hl) as Hl_lt.
  pose proof (lookup_lt_Some _ _ _ Hr) as Hr_lt.
  eexists. split; [|split].
  - unfold reduce_step. simpl. rewrite Hl. simpl. rewrite Hr. simpl. reflexivity.
  - rewrite !update_length, length_app. simpl. lia.
  - intros j. rewrite !update_lookup.
    assert (forall x, x < length heap ->
              (heap ++ [MerkleNode_new (combine_hashes (hash ln) (hash rn))]) !! x
              = heap !! x) as Hold by (intros x Hx; by apply lookup_app_l).
    assert ((heap ++ [MerkleNode_new (combine_hashes (hash ln) (hash rn))])
              !! length heap
            = Some (MerkleNode_new (combine_hashes (hash ln) (hash rn)))) as Hnew.
    { rewrite lookup_app_r by lia. by rewrite Nat.sub_diag. }
    repeat (case_decide; subst; try lia);
      rewrite ?Hnew, ?Hold, ?Hl, ?Hr by lia; try done.
    destruct (decide (j < length heap)); [by rewrite Hold|].
    rewrite !lookup_ge_None_2; [done | lia |]. rewrite length_app. simpl. lia.
Qed.

Lemma leaf_loop_spec (rest : list string) :
  forall (i : Z) (heap : store) (nodes : list nat),
    (0 <= i)%Z -> (i + size rest <= INT_MAX)%Z ->
    leaf_loop i rest heap nodes
    = Returns (heap ++ ((fun b => MerkleNode_new (simple_hash b)) <$> rest),
               nodes ++ seq (length heap) (length rest)).
Proof.
  induction rest as [|b rest IH]; intros i heap nodes Hi Hmax.
  - simpl. by rewrite !app_nil_r.
  - unfold size in *. simpl length in *. simpl leaf_loop.
    destruct (Z.ltb_spec INT_MAX (i + 1)); [lia|].
    rewrite IH by lia. rewrite length_app. simpl.
    rewrite <- !app_assoc. simpl. by rewrite Nat.add_1_r.
Qed.

(** ** The reduction loop *)

Lemma reduced_initial (padded : list string) :
  reduced (length padded) 0
    ((fun b => MerkleNode_new (simple_hash b)) <$> padded).
Proof.
  split; [rewrite length_fmap; lia|].
  intros j n Hj. pose proof (lookup_lt_Some _ _ _ Hj) as Hlt.
  rewrite length_fmap in Hlt.
  rewrite list_lookup_fmap in Hj.
  destruct (padded !! j) as [b|]; [|done]. injection Hj as <-.
  split; [by case_decide; [lia|]|]. split; [done | lia].
Qed.

Lemma reduced_step (p i : nat) (heap : store) :
  reduced p i heap -> i + 2 <= p ->
  exists heap',
    reduce_step heap (2 * i) (S (2 * i)) = Returns (heap', p + i)
    /\ reduced p (S i) heap'.
Proof.
  intros [Hlen Hnodes] Hi.
  destruct (lookup_lt_is_Some_2 heap (2 * i) ltac:(lia)) as [ln Hl].
  destruct (lookup_lt_is_Some_2 heap (S (2 * i)) ltac:(lia)) as [rn Hr].
  destruct (reduce_step_spec heap _ _ ln rn Hl Hr ltac:(lia))
    as (heap' & Hstep & Hlen' & Hlook).
  exists heap'. rewrite Hstep, Hlen. split; [done|].
  assert (forall c nc, heap !! c = Some nc ->
            exists nc', heap' !! c = Some nc' /\ hash nc' = hash nc) as Hkeep.
  { intros c nc Hc. pose proof (lookup_lt_Some _ _ _ Hc).
    rewrite Hlook. repeat case_decide; try lia; rewrite Hc; simpl; eauto. }
  split; [lia|].
  intros j n Hj. rewrite Hlook in Hj. rewrite Hlen in Hj.
  destruct (decide (j = p + i)) as [-> | Hne].
  - injection Hj as <-. cbn [parent left right hash].
    split; [by case_decide; [lia|]|]. split; [lia|]. intros _.
    replace (p + i - p) with i by lia. split; [done|]. split; [done|].
    destruct (Hkeep _ _ Hl) as (ln' & Hl' & Hhl).
    destruct (Hkeep _ _ Hr) as (rn' & Hr' & Hhr).
    exists ln', rn'. by rewrite Hhl, Hhr.
  - assert (exists n0, heap !! j = Some n0 /\ left n = left n0
              /\ right n = right n0 /\ hash n = hash n0
              /\ parent n = if decide (j = 2 * i \/ j = S (2 * i))
                            then Some (p + i) else parent n0)
      as (n0 & Hj0 & Hleft & Hright & Hhash & Hpar).
    { case_decide.
      - destruct (heap !! j) as [n0|]; [|done]. injection Hj as <-. eauto 10.
      - eauto 10. }
    destruct (Hnodes _ _ Hj0) as (Hp0 & Hleaf0 & Hint0).
    rewrite Hleft, Hright, Hhash, Hpar. split.
    + pose proof (Nat.div_mod_eq j 2). pose proof (Nat.mod_upper_bound j 2).
      rewrite Hp0. repeat case_decide; try lia; f_equal; lia.
    + split; [done|]. intros Hpj.
      destruct (Hint0 Hpj) as (-> & -> & ln0 & rn0 & Hl0 & Hr0 & ->).
      split; [done|]. split; [done|].
      destruct (Hkeep _ _ Hl0) as (ln' & Hl' & Hhl).
      destruct (Hkeep _ _ Hr0) as (rn' & Hr' & Hhr).
      exists ln', rn'. by rewrite Hhl, Hhr.
Qed.

Lemma reduce_loop_run (m : nat) : forall (p i fuel : nat) (heap : store),
  reduced p i heap -> i + 1 + m = p -> m <= fuel ->
  exists heap',
    reduce_loop fuel heap (seq (2 * i) (p - i)) = Returns (heap', [2 * (p - 1)])
    /\ reduced p (p - 1) heap'.
Proof.
  induction m as [|m IH]; intros p i fuel heap Hred Hp Hfuel.
  - replace (p - i) with 1 by lia. replace (p - 1) with i by lia.
    exists heap. by destruct fuel.
  - replace (p - i) with (S (S (p - S i - 1))) by lia.
    destruct fuel as [|fuel]; [lia|].
    destruct (reduced_step p i heap Hred ltac:(lia)) as (heap' & Hstep & Hred').
    destruct (IH p (S i) fuel heap' Hred' ltac:(lia) ltac:(lia))
      as (heap'' & Hrun & Hfinal).
    exists heap''. split; [|done].
    cbn [seq reduce_loop]. rewrite Hstep.
    unfold mbind, outcome_bind; cbv beta iota.
    rewrite <- Hrun. f_equal.
    replace (p - S i) with (S (p - S i - 1)) by lia.
    rewrite seq_S. f_equal; [f_equal; lia | f_equal; lia].
Qed.

(** The whole construction on a list whose size fits the machine
    integers: the padded size is [2 ^ k], the root is the last node
    allocated and the store is fully reduced. *)
Lemma build_spec (blocks : list string) :
  (1 <= size blocks <= 2 ^ 30)%Z ->
  exists (k : nat) (padded : list string) (heap : store),
    pad_loop (length blocks) blocks = Returns padded
    /\ length padded = 2 ^ k
    /\ build_merkle_tree blocks = Returns (heap, Some (2 * (2 ^ k - 1)))
    /\ reduced (2 ^ k) (2 ^ k - 1) heap.
Proof.
  intros Hn.
  destruct (pad_loop_spec blocks ltac:(lia)) as (k & Hrun & Hp & Hlow).
  set (padded := blocks ++ _) in Hrun.
  assert (size padded = 2 ^ Z.of_nat k)%Z as Hsize.
  { unfold padded, size in *. rewrite length_app, length_replicate. lia. }
  assert (length padded = 2 ^ k) as Hlen.
  { apply Nat2Z.inj. rewrite Nat2Z.inj_pow. exact Hsize. }
  assert (2 ^ Z.of_nat k <= 2 ^ 30)%Z as H30
    by (apply (pow2_minimal (size blocks)); auto; lia).
  assert (0 < 2 ^ k) as Hpos by (apply Nat.neq_0_lt_0, Nat.pow_nonzero; lia).
  pose proof (reduced_initial padded) as Hinit. rewrite Hlen in Hinit.
  destruct (reduce_loop_run (2 ^ k - 1) (2 ^ k) 0 (2 ^ k) _ Hinit
              ltac:(lia) ltac:(lia)) as (heap & Hloop & Hred).
  exists k, padded, heap. split; [done|]. split; [done|]. split; [|done].
  unfold build_merkle_tree. rewrite Hrun. simpl.
  rewrite leaf_loop_spec by (unfold INT_MAX; lia). simpl.
  rewrite length_seq, Hlen. simpl in Hloop. rewrite Nat.sub_0_r in Hloop.
  rewrite Hloop. simpl. do 3 f_equal; lia.
Qed.

(** ** The upward walk of generate_merkle_proof *)

Lemma proof_loop_root (fuel : nat) (heap : store) (a : nat) (n : MerkleNode)
    (acc : list string) :
  heap !! a = Some n -> parent n = None ->
  proof_loop fuel heap (Some a) acc = Returns acc.
Proof.
  intros Ha Hp. destruct fuel; simpl; rewrite Ha; simpl; by rewrite Hp.
Qed.

Lemma proof_loop_step (fuel : nat) (heap : store) (a pa s : nat)
    (n pn sn : MerkleNode) (acc : list string) :
  heap !! a = Some n -> parent n = Some pa -> heap !! pa = Some pn ->
  (if decide (left pn = Some a) then right pn else left pn) = Some s ->
  heap !! s = Some sn ->
  proof_loop (S fuel) heap (Some a) acc
  = proof_loop fuel heap (Some pa) (acc ++ [hash sn]).
Proof.
  intros Ha Hp Hpa Hs Hsn. simpl. rewrite Ha. simpl. rewrite Hp. simpl.
  rewrite Hpa. simpl. rewrite Hs. simpl. by rewrite Hsn.
Qed.

Lemma ancestor_step (heap : store) (i a pa : nat) (n : MerkleNode) :
  heap !! a = Some n -> parent n = Some pa ->
  ancestor heap (S i) a = ancestor heap i pa.
Proof. intros Ha Hp. simpl. rewrite Ha. simpl. by rewrite Hp. Qed.

Lemma sibling_hash_step (heap : store) (a pa s : nat) (n pn sn : MerkleNode) :
  heap !! a = Some n -> parent n = Some pa -> heap !! pa = Some pn ->
  (if decide (left pn = Some a) then right pn else left pn) = Some s ->
  heap !! s = Some sn ->
  sibling_hash heap a = Some (hash sn).
Proof.
  intros Ha Hp Hpa Hs Hsn. unfold sibling_hash. rewrite Ha. simpl.
  rewrite Hp. simpl. rewrite Hpa. simpl. rewrite Hs. simpl. by rewrite Hsn.
Qed.

(** ** Nodes of a subtree *)

Lemma perfect_has_child (heap : store) (d : nat) (p : ptr) :
  is_perfect heap d p = true -> exists x, p = Some x.
Proof. destruct p as [x|]; [eauto | by destruct d]. Qed.

Lemma perfect_height_unique (heap : store) (d : nat) : forall d' a,
  is_perfect heap d (Some a) = true -> is_perfect heap d' (Some a) = true ->
  d = d'.
Proof.
  induction d as [|d IH]; intros [|d'] a H1 H2; cbn [is_perfect] in H1, H2;
    destruct (heap !! a) as [n|]; try done.
  - apply andb_true_iff in H2 as [H2 _].
    apply andb_true_iff in H1 as [H1 _]. apply bool_decide_eq_true in H1.
    rewrite H1 in H2. by destruct d'.
  - apply andb_true_iff in H1 as [H1 _].
    apply andb_true_iff in H2 as [H2 _]. apply bool_decide_eq_true in H2.
    rewrite H2 in H1. by destruct d.
  - apply andb_true_iff in H1 as [H1 _]. apply andb_true_iff in H2 as [H2 _].
    destruct (perfect_has_child _ _ _ H1) as [l Hl]. rewrite Hl in H1, H2.
    f_equal. by apply (IH d' l).
Qed.

Lemma ancestor_top (heap : store) (j : nat) : forall (x y z : nat) (yn : MerkleNode),
  ancestor heap j x = Some y -> heap !! y = Some yn -> parent yn = Some z ->
  ancestor heap (S j) x = Some z.
Proof.
  induction j as [|j IH]; intros x y z yn Hanc Hy Hp.
  - injection Hanc as ->. simpl. rewrite Hy. simpl. by rewrite Hp.
  - cbn [ancestor] in Hanc |- *.
    destruct (heap !! x) as [n|]; [|done]. simpl in Hanc |- *.
    destruct (parent n) as [px|]; [|done]. simpl in Hanc |- *.
    by apply (IH px y z yn).
Qed.

Lemma subtree_nodes_size (heap : store) (d : nat) : forall a,
  is_perfect heap d (Some a) = true ->
  length (subtree_nodes heap d (Some a)) = 2 ^ S d - 1
  /\ forall x, x ∈ subtree_nodes heap d (Some a) -> x < length heap.
Proof.
  induction d as [|d IH]; intros a Hperf; cbn [is_perfect] in Hperf;
    cbn [subtree_nodes]; destruct (heap !! a) as [n|] eqn:Ha; try done.
  - split; [done|]. intros x ->%list_elem_of_singleton. by eapply lookup_lt_Some.
  - apply andb_true_iff in Hperf as [Hpl Hpr].
    destruct (perfect_has_child _ _ _ Hpl) as [l Hl].
    destruct (perfect_has_child _ _ _ Hpr) as [r Hr].
    rewrite Hl in Hpl |- *. rewrite Hr in Hpr |- *.
    destruct (IH l Hpl) as [Hlenl Hinl]. destruct (IH r Hpr) as [Hlenr Hinr].
    split.
    + cbn [length]. rewrite length_app, Hlenl, Hlenr.
      assert (0 < 2 ^ d) by (apply Nat.neq_0_lt_0, Nat.pow_nonzero; lia).
      cbn [Nat.pow]. lia.
    + intros x [-> | [Hin | Hin]%elem_of_app]%elem_of_cons; auto.
      by eapply lookup_lt_Some.
Qed.

(** ** Shape of the built tree *)

Section Built.

Variables (k : nat) (heap : store).
Hypothesis Hred : reduced (2 ^ k) (2 ^ k - 1) heap.

Lemma pow2_pos (e : nat) : 0 < 2 ^ e.
Proof. apply Nat.neq_0_lt_0, Nat.pow_nonzero. lia. Qed.

Lemma pow2_level (e : nat) : S e <= k -> 2 * 2 ^ e <= 2 ^ k.
Proof.
  intros He. change (2 * 2 ^ e) with (2 ^ S e). apply Nat.pow_le_mono_r; lia.
Qed.

Lemma at_level_lookup (e m a : nat) :
  e <= k -> at_level k e m a -> exists n, heap !! a = Some n.
Proof.
  intros He [Hm Ha]. destruct Hred as [Hlen _].
  pose proof (pow2_pos k). pose proof (pow2_pos e).
  apply lookup_lt_is_Some_2. lia.
Qed.

Lemma at_level_leaf (a : nat) (n : MerkleNode) :
  heap !! a = Some n -> is_leaf n = true -> at_level k k a a.
Proof.
  intros Ha Hleaf. destruct Hred as [_ Hnodes].
  destruct (Hnodes _ _ Ha) as (_ & _ & Hint).
  destruct (decide (2 ^ k <= a)) as [Hge|Hlt].
  - destruct (Hint Hge) as (Hl & _). unfold is_leaf in Hleaf.
    rewrite Hl in Hleaf. done.
  - split; lia.
Qed.

Lemma perfect_level (d : nat) : forall e m a,
  d + e = k -> at_level k e m a -> is_perfect heap d (Some a) = true.
Proof.
  induction d as [|d IH]; intros e m a Hk Hlev.
  - destruct (at_level_lookup e m a ltac:(lia) Hlev) as [n Hn].
    destruct Hlev as [Hm Ha]. destruct Hred as [_ Hnodes].
    destruct (Hnodes _ _ Hn) as (_ & Hleaf & _).
    assert (e = k) as -> by lia.
    destruct (Hleaf ltac:(lia)) as [Hl Hr].
    simpl. rewrite Hn. unfold is_leaf. by rewrite Hl, Hr.
  - destruct (at_level_lookup e m a ltac:(lia) Hlev) as [n Hn].
    pose proof (pow2_level e ltac:(lia)) as Hpow.
    destruct Hlev as [Hm Ha]. destruct Hred as [_ Hnodes].
    destruct (Hnodes _ _ Hn) as (_ & _ & Hint).
    destruct (Hint ltac:(lia)) as (Hl & Hr & _).
    cbn [is_perfect]. rewrite Hn, Hl, Hr.
    rewrite (IH (S e) (2 * m)), (IH (S e) (S (2 * m))); try done; try lia.
    + split; cbn [Nat.pow]; lia.
    + split; cbn [Nat.pow]; lia.
Qed.

Lemma built_root_perfect : is_perfect heap k (Some (2 * (2 ^ k - 1))) = true.
Proof.
  apply (perfect_level k 0 0); [lia|]. pose proof (pow2_pos k).
  split; simpl; lia.
Qed.

Lemma built_hashes (x : nat) (n : MerkleNode) :
  heap !! x = Some n ->
  is_leaf n = true
  \/ exists l r ln rn,
      left n = Some l /\ right n = Some r
      /\ heap !! l = Some ln /\ heap !! r = Some rn
      /\ hash n = combine_hashes (hash ln) (hash rn).
Proof.
  intros Hx. destruct Hred as [_ Hnodes].
  destruct (Hnodes _ _ Hx) as (_ & Hleaf & Hint).
  destruct (decide (x < 2 ^ k)) as [Hlt|Hge].
  - left. destruct (Hleaf Hlt) as [Hl Hr]. unfold is_leaf. by rewrite Hl, Hr.
  - right. destruct (Hint ltac:(lia)) as (Hl & Hr & ln & rn & Hln & Hrn & Hh).
    eauto 10.
Qed.

Lemma built_links (x pa : nat) (xn pn : MerkleNode) :
  heap !! x = Some xn -> heap !! pa = Some pn ->
  (left pn = Some x \/ right pn = Some x) <-> parent xn = Some pa.
Proof.
  intros Hx Hpa. destruct Hred as [Hlen Hnodes].
  pose proof (lookup_lt_Some _ _ _ Hx) as Hx_lt.
  pose proof (lookup_lt_Some _ _ _ Hpa) as Hpa_lt.
  destruct (Hnodes _ _ Hx) as (Hpar & _ & _).
  destruct (Hnodes _ _ Hpa) as (_ & Hleaf & Hint).
  pose proof (Nat.div_mod_eq x 2). pose proof (Nat.mod_upper_bound x 2).
  rewrite Hpar. split.
  - intros Hchild. destruct (decide (pa < 2 ^ k)) as [Hlt|Hge].
    + destruct (Hleaf Hlt) as [Hl Hr]. rewrite Hl, Hr in Hchild.
      by destruct Hchild.
    + destruct (Hint ltac:(lia)) as (Hl & Hr & _). rewrite Hl, Hr in Hchild.
      case_decide; destruct Hchild as [[= <-]|[= <-]]; try lia; f_equal; lia.
  - case_decide; [|done]. intros Heq.
    assert (pa = 2 ^ k + x / 2) as Hpa_eq by congruence.
    destruct (Hint ltac:(lia)) as (Hl & Hr & _). rewrite Hl, Hr.
    destruct (decide (x mod 2 = 0)); [left | right]; f_equal; lia.
Qed.

(** From a node of the level with [2 ^ e] nodes the walk collects [e]
    sibling hashes, one per level, and ends at the root. *)
Lemma proof_loop_level (e : nat) : forall (fuel a m : nat) (acc : list string),
  e <= k -> at_level k e m a -> e <= fuel ->
  exists sibs,
    proof_loop fuel heap (Some a) acc = Returns (acc ++ sibs)
    /\ length sibs = e
    /\ (forall i, i < e ->
         exists x, ancestor heap i a = Some x
                   /\ sibling_hash heap x = sibs !! i)
    /\ ancestor heap e a = Some (2 * (2 ^ k - 1)).
Proof.
  induction e as [|e IH]; intros fuel a m acc He Hlev Hfuel.
  - destruct (at_level_lookup 0 m a He Hlev) as [n Hn].
    destruct Hlev as [Hm Ha]. destruct Hred as [_ Hnodes].
    destruct (Hnodes _ _ Hn) as (Hpar & _ & _).
    pose proof (pow2_pos k). cbn [Nat.pow] in Hm, Ha.
    rewrite decide_False in Hpar by lia.
    exists []. rewrite (proof_loop_root _ _ _ _ _ Hn Hpar), app_nil_r.
    split; [done|]. split; [done|]. split; [intros; lia|].
    cbn [ancestor]. f_equal. lia.
  - destruct (at_level_lookup (S e) m a He Hlev) as [n Hn].
    pose proof (pow2_level e He) as Hpow. pose proof (pow2_pos e).
    destruct Hlev as [Hm Ha]. cbn [Nat.pow] in Hm, Ha.
    pose proof Hred as [Hlen Hnodes].
    destruct (Hnodes _ _ Hn) as (Hpar & _ & _).
    rewrite decide_True in Hpar by lia.
    pose proof (Nat.div_mod_eq a 2). pose proof (Nat.mod_upper_bound a 2).
    pose proof (Nat.div_mod_eq m 2). pose proof (Nat.mod_upper_bound m 2).
    assert (at_level k e (m / 2) (2 ^ k + a / 2)) as Hlev' by (split; lia).
    destruct (at_level_lookup e _ _ ltac:(lia) Hlev') as [pn Hpn].
    destruct (Hnodes _ _ Hpn) as (_ & _ & Hint).
    destruct (Hint ltac:(lia)) as (Hl & Hr & ln & rn & Hln & Hrn & _).
    assert (exists s sn,
              (if decide (left pn = Some a) then right pn else left pn) = Some s
              /\ heap !! s = Some sn) as (s & sn & Hs & Hsn).
    { case_decide; eauto. }
    destruct fuel as [|fuel]; [lia|].
    destruct (IH fuel _ _ (acc ++ [hash sn]) ltac:(lia) Hlev' ltac:(lia))
      as (sibs & Hrun & Hlen' & Horder & Htop).
    exists (hash sn :: sibs).
    rewrite (proof_loop_step _ _ _ _ _ _ _ _ _ Hn Hpar Hpn Hs Hsn), Hrun.
    rewrite <- app_assoc. split; [done|]. split; [simpl; lia|]. split.
    + intros [|i] Hi.
      * exists a. split; [done|].
        by rewrite (sibling_hash_step _ _ _ _ _ _ _ Hn Hpar Hpn Hs Hsn).
      * destruct (Horder i ltac:(lia)) as (x & Hx & Hsib).
        exists x. by rewrite (ancestor_step _ _ _ _ _ Hn Hpar).
    + by rewrite (ancestor_step _ _ _ _ _ Hn Hpar).
Qed.

Lemma built_proof (L : nat) (n : MerkleNode) :
  heap !! L = Some n -> is_leaf n = true ->
  exists proof,
    generate_merkle_proof heap (Some (2 * (2 ^ k - 1))) (Some L) = Returns proof
    /\ length proof = k
    /\ (forall i, i < k ->
         exists x, ancestor heap i L = Some x
                   /\ sibling_hash heap x = proof !! i)
    /\ ancestor heap k L = Some (2 * (2 ^ k - 1)).
Proof.
  intros HL Hleaf. pose proof (at_level_leaf L n HL Hleaf) as Hlev.
  destruct Hred as [Hlen _]. pose proof (Nat.pow_gt_lin_r 2 k ltac:(lia)).
  destruct (proof_loop_level k (length heap) L L [] ltac:(lia) Hlev ltac:(lia))
    as (sibs & Hrun & Hrest).
  exists sibs. by split.
Qed.

(** A node of the subtree at [a] lies some [j] parent links below [a] and
    is the top of a perfect subtree of the remaining height. *)
Lemma subtree_nodes_below (d : nat) : forall a x,
  is_perfect heap d (Some a) = true -> x ∈ subtree_nodes heap d (Some a) ->
  exists j, j <= d /\ ancestor heap j x = Some a
            /\ is_perfect heap (d - j) (Some x) = true.
Proof.
  induction d as [|d IH]; intros a x Hperf Hin; pose proof Hperf as Hperf';
    cbn [is_perfect] in Hperf; cbn [subtree_nodes] in Hin;
    destruct (heap !! a) as [n|] eqn:Ha; try done.
  - apply list_elem_of_singleton in Hin as ->. by exists 0.
  - apply andb_true_iff in Hperf as [Hpl Hpr].
    destruct (perfect_has_child _ _ _ Hpl) as [l Hl].
    destruct (perfect_has_child _ _ _ Hpr) as [r Hr].
    rewrite Hl in Hpl, Hin. rewrite Hr in Hpr, Hin.
    apply elem_of_cons in Hin as [-> | Hin].
    { exists 0. split; [lia|]. split; [done|]. exact Hperf'. }
    assert (exists c cn, (c = l \/ c = r) /\ heap !! c = Some cn
              /\ is_perfect heap d (Some c) = true
              /\ x ∈ subtree_nodes heap d (Some c)) as (c & cn & Hc & Hcn & Hpc & Hxc).
    { apply elem_of_app in Hin as [Hin | Hin].
      - assert (exists cn, heap !! l = Some cn) as [cn Hcn].
        { destruct d; cbn [is_perfect] in Hpl; destruct (heap !! l); eauto; done. }
        exists l, cn. auto.
      - assert (exists cn, heap !! r = Some cn) as [cn Hcn].
        { destruct d; cbn [is_perfect] in Hpr; destruct (heap !! r); eauto; done. }
        exists r, cn. auto. }
    destruct (IH c x Hpc Hxc) as (j & Hj & Hanc & Hpx).
    assert (parent cn = Some a) as Hpar.
    { apply (built_links c a cn n Hcn Ha). destruct Hc as [-> | ->]; auto. }
    exists (S j). split; [lia|]. split; [|done].
    by apply (ancestor_top heap j x c a cn).
Qed.

Lemma built_children_differ (x l r : nat) (n : MerkleNode) :
  heap !! x = Some n -> left n = Some l -> right n = Some r -> l <> r.
Proof.
  intros Hx Hl Hr. destruct Hred as [_ Hnodes].
  destruct (Hnodes _ _ Hx) as (_ & Hleaf & Hint).
  destruct (decide (x < 2 ^ k)) as [Hlt|Hge].
  - destruct (Hleaf Hlt) as [Hnone _]. congruence.
  - destruct (Hint ltac:(lia)) as (Hl' & Hr' & _).
    rewrite Hl in Hl'. rewrite Hr in Hr'.
    injection Hl' as ->. injection Hr' as ->. lia.
Qed.

(** No node occurs twice in a perfect subtree of the built store. *)
Lemma subtree_nodes_distinct (d : nat) : forall a,
  is_perfect heap d (Some a) = true -> NoDup (subtree_nodes heap d (Some a)).
Proof.
  induction d as [|d IH]; intros a Hperf; pose proof Hperf as Hperf';
    cbn [is_perfect] in Hperf; cbn [subtree_nodes];
    destruct (heap !! a) as [n|] eqn:Ha; try done.
  - apply NoDup_singleton.
  - apply andb_true_iff in Hperf as [Hpl Hpr].
    destruct (perfect_has_child _ _ _ Hpl) as [l Hl].
    destruct (perfect_has_child _ _ _ Hpr) as [r Hr].
    rewrite Hl in Hpl |- *. rewrite Hr in Hpr |- *.
    pose proof (built_children_differ a l r n Ha Hl Hr) as Hne.
    apply NoDup_cons. split.
    + intros [Hin | Hin]%elem_of_app.
      * destruct (subtree_nodes_below d l a Hpl Hin) as (j & Hj & _ & Hpa).
        pose proof (perfect_height_unique _ _ _ _ Hperf' Hpa). lia.
      * destruct (subtree_nodes_below d r a Hpr Hin) as (j & Hj & _ & Hpa).
        pose proof (perfect_height_unique _ _ _ _ Hperf' Hpa). lia.
    + apply NoDup_app. split; [by apply IH|]. split; [|by apply IH].
      intros x Hxl Hxr.
      destruct (subtree_nodes_below d l x Hpl Hxl) as (j1 & Hj1 & Ha1 & Hp1).
      destruct (subtree_nodes_below d r x Hpr Hxr) as (j2 & Hj2 & Ha2 & Hp2).
      pose proof (perfect_height_unique _ _ _ _ Hp1 Hp2).
      assert (j1 = j2) as -> by lia. congruence.
Qed.

(** The tree under the root consists of pairwise different nodes, and
    they are all the nodes of the store. *)
Lemma built_tree_nodes :
  NoDup (subtree_nodes heap k (Some (2 * (2 ^ k - 1))))
  /\ forall x, x ∈ subtree_nodes heap k (Some (2 * (2 ^ k - 1)))
               <-> x < length heap.
Proof.
  pose proof built_root_perfect as Hperf.
  pose proof (subtree_nodes_distinct k _ Hperf) as Hnd.
  destruct (subtree_nodes_size heap k _ Hperf) as [Hlen Hbound].
  split; [done|]. intros x. split; [apply Hbound|]. intros Hx.
  assert (subtree_nodes heap k (Some (2 * (2 ^ k - 1))) ⊆+ seq 0 (length heap))
    as Hsub.
  { apply NoDup_submseteq; [done|]. intros y Hy. apply elem_of_seq.
    pose proof (Hbound y Hy). lia. }
  apply submseteq_length_Permutation in Hsub.
  - rewrite Hsub. apply elem_of_seq. lia.
  - rewrite length_seq, Hlen. destruct Hred as [Hheap _].
    pose proof (pow2_pos k). cbn [Nat.pow]. lia.
Qed.

End Built.

(** C9: the tree built on a non-empty input is a complete binary tree
    whose height is the base-two logarithm of the padded leaf count: the
    subtree under the root is perfect, its nodes are pairwise different
    and are all the nodes allocated, and the two children of a node are
    different nodes.  Every node with children carries [combine_hashes] of
    their hashes, and a node is a child of exactly the node that its
    parent link names. *)
Theorem built_tree_invariants (blocks : list string) :
  (1 <= size blocks <= 2 ^ 30)%Z ->
  exists (k : nat) (padded : list string) (heap : store) (root : nat),
    pad_loop (length blocks) blocks = Returns padded
    /\ length padded = 2 ^ k
    /\ build_merkle_tree blocks = Returns (heap, Some root)
    /\ is_perfect heap k (Some root) = true
    /\ NoDup (subtree_nodes heap k (Some root))
    /\ (forall x, x ∈ subtree_nodes heap k (Some root) <-> x < length heap)
    /\ (forall x n, heap !! x = Some n ->
         is_leaf n = true
         \/ exists l r ln rn,
             left n = Some l /\ right n = Some r /\ l <> r
             /\ heap !! l = Some ln /\ heap !! r = Some rn
             /\ hash n = combine_hashes (hash ln) (hash rn))
    /\ (forall x pa xn pn, heap !! x = Some xn -> heap !! pa = Some pn ->
         (left pn = Some x \/ right pn = Some x) <-> parent xn = Some pa).
Proof.
  intros Hn. destruct (build_spec blocks Hn) as (k & padded & heap & Hpad & Hlen & Hb & Hred).
  exists k, padded, heap, (2 * (2 ^ k - 1)).
  destruct (built_tree_nodes k heap Hred) as [Hnd Hall].
  split; [done|]. split; [done|]. split; [done|]. split; [|split; [done|split; [done|split]]].
  - by apply built_root_perfect.
  - intros x n Hx.
    destruct (built_hashes k heap Hred x n Hx)
      as [Hleaf | (l & r & ln & rn & Hl & Hr & Hln & Hrn & Hh)]; [by left|].
    right. exists l, r, ln, rn.
    pose proof (built_children_differ k heap Hred x l r n Hx Hl Hr). auto 10.
  - intros x pa xn pn. by apply (built_links k).
Qed.

(** C4: in the tree built over [2 ^ k] padded leaves the proof generated
    for a leaf has exactly [k] entries; entry [i] is the hash of the
    sibling of the leaf's [i]-th ancestor, so the entries run from the
    leaf's own sibling to the sibling just below the root. *)
Theorem proof_length_and_order (blocks : list string) :
  (1 <= size blocks <= 2 ^ 30)%Z ->
  exists (k : nat) (padded : list string) (heap : store) (root : nat),
    pad_loop (length blocks) blocks = Returns padded
    /\ length padded = 2 ^ k
    /\ build_merkle_tree blocks = Returns (heap, Some root)
    /\ forall L n, heap !! L = Some n -> is_leaf n = true ->
        exists proof,
          generate_merkle_proof heap (Some root) (Some L) = Returns proof
          /\ length proof = k
          /\ (forall i, i < k ->
               exists x, ancestor heap i L = Some x
                         /\ is_Some (proof !! i)
                         /\ sibling_hash heap x = proof !! i)
          /\ ancestor heap k L = Some root.
Proof.
  intros Hn.
  destruct (build_spec blocks Hn) as (k & padded & heap & Hpad & Hlen & Hb & Hred).
  exists k, padded, heap, (2 * (2 ^ k - 1)).
  split; [done|]. split; [done|]. split; [done|].
  intros L n HL Hleaf.
  destruct (built_proof k heap Hred L n HL Hleaf)
    as (proof & Hgen & Hk & Horder & Htop).
  exists proof. split; [done|]. split; [done|]. split; [|done].
  intros i Hi. destruct (Horder i Hi) as (x & Hx & Hsib).
  exists x. split; [done|]. split; [|done].
  apply lookup_lt_is_Some_2. lia.
Qed.

(** ** Small inputs *)

(** C6: for a one-element input no padding occurs, the root is the single
    leaf and carries the hash of the block, the proof of that leaf is
    empty, and [verify] accepts it. *)
Theorem single_block_tree (x : string) :
  pad_loop 1 [x] = Returns [x]
  /\ build_merkle_tree [x] = Returns ([MerkleNode_new (simple_hash x)], Some 0)
  /\ generate_merkle_proof [MerkleNode_new (simple_hash x)] (Some 0) (Some 0)
     = Returns []
  /\ verify [MerkleNode_new (simple_hash x)] (Some 0) (Some 0) [] = Returns true.
Proof.
  repeat split; try reflexivity.
  rewrite (verify_returns _ 0 0 (MerkleNode_new (simple_hash x))
             (MerkleNode_new (simple_hash x))) by reflexivity.
  simpl. by rewrite String.eqb_refl.
Qed.

(** C2 (amended): the program has no [EmptyInputError].  On zero blocks the
    padding loop appends nothing, no leaf is created, and the final
    [return nodes[0]] reads past the end of an empty vector; nothing is
    thrown to the caller. *)
Theorem build_empty_input :
  pad_loop 0 [] = Returns []
  /\ leaf_loop 0 [] [] [] = Returns ([], [])
  /\ build_merkle_tree [] = Undefined OutOfRange
  /\ forall what : string, build_merkle_tree [] <> Throws what.
Proof. repeat split; try reflexivity. intros what. discriminate. Qed.

(** A tree over two blocks whose left digest is the lexicographically
    larger one: [verify] recombines the pair in the other order than
    [build_merkle_tree] did and rejects the proof of the first leaf. *)
Lemma two_blocks_rejected (b0 b1 : string) :
  (simple_hash b1 <? simple_hash b0)%string = true ->
  combine_hashes (simple_hash b1) (simple_hash b0)
    <> combine_hashes (simple_hash b0) (simple_hash b1) ->
  exists heap root proof,
    build_merkle_tree [b0; b1] = Returns (heap, root)
    /\ generate_merkle_proof heap root (Some 0) = Returns proof
    /\ verify heap root (Some 0) proof = Returns false.
Proof.
  intros Hlt Hne. eexists _, _, _. split; [reflexivity|]. split; [reflexivity|].
  unfold verify. simpl. unfold verify_step.
  rewrite (ltb_asym _ _ Hlt).
  by apply String.eqb_neq in Hne as ->.
Qed.

(** Of the two trees over a pair of blocks with different digests, one is
    built with the larger digest on the left, and its first proof is
    rejected. *)
Lemma one_order_is_rejected (b0 b1 : string) :
  simple_hash b0 <> simple_hash b1 ->
  combine_hashes (simple_hash b1) (simple_hash b0)
    <> combine_hashes (simple_hash b0) (simple_hash b1) ->
  exists blocks heap root proof,
    (blocks = [b0; b1] \/ blocks = [b1; b0])
    /\ build_merkle_tree blocks = Returns (heap, root)
    /\ generate_merkle_proof heap root (Some 0) = Returns proof
    /\ verify heap root (Some 0) proof = Returns false.
Proof.
  intros Hdiff Hne.
  destruct (simple_hash b1 <? simple_hash b0)%string eqn:H10.
  - destruct (two_blocks_rejected b0 b1 H10 Hne) as (heap & root & proof & H).
    exists [b0; b1], heap, root, proof. auto.
  - destruct (simple_hash b0 <? simple_hash b1)%string eqn:H01.
    + destruct (two_blocks_rejected b1 b0 H01 ltac:(congruence))
        as (heap & root & proof & H).
      exists [b1; b0], heap, root, proof. auto.
    + destruct Hdiff. by apply ltb_total.
Qed.

(** ** Further properties of the construction *)

Lemma reduced_step_keeps (p i : nat) (heap : store) :
  reduced p i heap -> i + 2 <= p ->
  exists heap',
    reduce_step heap (2 * i) (S (2 * i)) = Returns (heap', p + i)
    /\ reduced p (S i) heap'
    /\ forall c nc, heap !! c = Some nc ->
        exists nc', heap' !! c = Some nc' /\ hash nc' = hash nc.
Proof.
  intros Hred Hi.
  destruct (reduced_step p i heap Hred Hi) as (heap' & Hstep & Hred').
  exists heap'. split; [done|]. split; [done|].
  destruct Hred as [Hlen _].
  destruct (lookup_lt_is_Some_2 heap (2 * i) ltac:(lia)) as [ln Hl].
  destruct (lookup_lt_is_Some_2 heap (S (2 * i)) ltac:(lia)) as [rn Hr].
  destruct (reduce_step_spec heap _ _ ln rn Hl Hr ltac:(lia))
    as (heap2 & Hstep2 & _ & Hlook).
  rewrite Hstep in Hstep2. injection Hstep2 as <- _.
  intros c nc Hc. pose proof (lookup_lt_Some _ _ _ Hc).
  rewrite Hlook. repeat case_decide; try lia; rewrite Hc; simpl; eauto.
Qed.

Lemma reduce_loop_keeps (m : nat) : forall (p i fuel : nat) (heap : store),
  reduced p i heap -> i + 1 + m = p -> m <= fuel ->
  exists heap',
    reduce_loop fuel heap (seq (2 * i) (p - i)) = Returns (heap', [2 * (p - 1)])
    /\ reduced p (p - 1) heap'
    /\ forall c nc, heap !! c = Some nc ->
        exists nc', heap' !! c = Some nc' /\ hash nc' = hash nc.
Proof.
  induction m as [|m IH]; intros p i fuel heap Hred Hp Hfuel.
  - replace (p - i) with 1 by lia. replace (p - 1) with i by lia.
    exists heap. split; [by destruct fuel|]. split; [done|]. eauto.
  - replace (p - i) with (S (S (p - S i - 1))) by lia.
    destruct fuel as [|fuel]; [lia|].
    destruct (reduced_step_keeps p i heap Hred ltac:(lia))
      as (heap' & Hstep & Hred' & Hkeep).
    destruct (IH p (S i) fuel heap' Hred' ltac:(lia) ltac:(lia))
      as (heap'' & Hrun & Hfinal & Hkeep').
    exists heap''. split; [|split; [done|]].
    + cbn [seq reduce_loop]. rewrite Hstep.
      unfold mbind, outcome_bind; cbv beta iota.
      rewrite <- Hrun. f_equal.
      replace (p - S i) with (S (p - S i - 1)) by lia.
      rewrite seq_S. f_equal; [f_equal; lia | f_equal; lia].
    + intros c nc Hc. destruct (Hkeep _ _ Hc) as (nc' & Hc' & Hh).
      destruct (Hkeep' _ _ Hc') as (nc'' & Hc'' & Hh').
      exists nc''. split; [done | congruence].
Qed.

(** The construction, with the hashes of the leaves: the node at address
    [j] carries the hash of the [j]-th padded block. *)
Lemma build_spec_leaves (blocks : list string) :
  (1 <= size blocks <= 2 ^ 30)%Z ->
  exists (k : nat) (padded : list string) (heap : store),
    pad_loop (length blocks) blocks = Returns padded
    /\ padded = blocks ++ replicate (length padded - length blocks) "_"%string
    /\ length padded = 2 ^ k
    /\ build_merkle_tree blocks = Returns (heap, Some (2 * (2 ^ k - 1)))
    /\ reduced (2 ^ k) (2 ^ k - 1) heap
    /\ forall j b, padded !! j = Some b ->
        exists n, heap !! j = Some n /\ hash n = simple_hash b.
Proof.
  intros Hn.
  destruct (pad_loop_spec blocks ltac:(lia)) as (k & Hrun & Hp & Hlow).
  set (padded := blocks ++ _) in Hrun.
  assert (size padded = 2 ^ Z.of_nat k)%Z as Hsize.
  { unfold padded, size in *. rewrite length_app, length_replicate. lia. }
  assert (length padded = 2 ^ k) as Hlen.
  { apply Nat2Z.inj. rewrite Nat2Z.inj_pow. exact Hsize. }
  assert (2 ^ Z.of_nat k <= 2 ^ 30)%Z as H30
    by (apply (pow2_minimal (size blocks)); auto; lia).
  assert (0 < 2 ^ k) as Hpos by (apply Nat.neq_0_lt_0, Nat.pow_nonzero; lia).
  pose proof (reduced_initial padded) as Hinit. rewrite Hlen in Hinit.
  destruct (reduce_loop_keeps (2 ^ k - 1) (2 ^ k) 0 (2 ^ k) _ Hinit
              ltac:(lia) ltac:(lia)) as (heap & Hloop & Hred & Hkeep).
  exists k, padded, heap. split; [done|]. split.
  { unfold padded at 1. f_equal. f_equal.
    unfold padded, size in *. rewrite length_app, length_replicate. lia. }
  split; [done|]. split; [|split; [done|]].
  - unfold build_merkle_tree. rewrite Hrun. simpl.
    rewrite leaf_loop_spec by (unfold INT_MAX; lia). simpl.
    rewrite length_seq, Hlen. simpl in Hloop. rewrite Nat.sub_0_r in Hloop.
    rewrite Hloop. simpl. do 3 f_equal; lia.
  - intros j b Hj. apply (Hkeep j (MerkleNode_new (simple_hash b))).
    by rewrite list_lookup_fmap, Hj.
Qed.

(** X1: the construction allocates one node per padded block and one per
    pair reduced, [2p - 1] in all; the root is the last one allocated and
    the only node without a parent. *)
Theorem build_allocates (blocks : list string) :
  (1 <= size blocks <= 2 ^ 30)%Z ->
  exists (padded : list string) (heap : store) (root : nat),
    pad_loop (length blocks) blocks = Returns padded
    /\ build_merkle_tree blocks = Returns (heap, Some root)
    /\ length heap = 2 * length padded - 1
    /\ S root = length heap
    /\ forall x n, heap !! x = Some n -> (parent n = None <-> x = root).
Proof.
  intros Hn.
  destruct (build_spec blocks Hn) as (k & padded & heap & Hpad & Hlen & Hb & Hred).
  pose proof (pow2_pos k) as Hpos.
  exists padded, heap, (2 * (2 ^ k - 1)).
  destruct Hred as [Hheap Hnodes].
  split; [done|]. split; [done|]. split; [lia|]. split; [lia|].
  intros x n Hx. destruct (Hnodes _ _ Hx) as (Hpar & _).
  pose proof (lookup_lt_Some _ _ _ Hx). rewrite Hpar.
  case_decide; split; intros; try done; lia.
Qed.

Section Leaves.

Variables (k : nat) (heap : store) (padded : list string).
Hypothesis Hred : reduced (2 ^ k) (2 ^ k - 1) heap.
Hypothesis Hlen : length padded = 2 ^ k.
Hypothesis Hleaves : forall j b, padded !! j = Some b ->
  exists n, heap !! j = Some n /\ hash n = simple_hash b.

(** Below the [m]-th node of a level lie the leaves of the [m]-th block
    of [2 ^ d] consecutive padded blocks. *)
Lemma frontier_level (d : nat) : forall e m a,
  d + e = k -> at_level k e m a ->
  frontier heap d (Some a)
  = take (2 ^ d) (drop (m * 2 ^ d) (simple_hash <$> padded)).
Proof.
  induction d as [|d IH]; intros e m a Hk Hlev.
  - destruct (at_level_lookup k heap Hred e m a ltac:(lia) Hlev) as [n Hn].
    destruct Hlev as [Hm Ha]. assert (e = k) as -> by lia.
    assert (a = m) as -> by lia.
    destruct (lookup_lt_is_Some_2 padded m ltac:(lia)) as [b Hb].
    destruct (Hleaves _ _ Hb) as (n' & Hn' & Hh).
    rewrite Hn in Hn'. injection Hn' as <-.
    cbn [frontier Nat.pow]. rewrite Hn, Nat.mul_1_r.
    rewrite (drop_S _ (simple_hash b)) by (by rewrite list_lookup_fmap, Hb).
    cbn [take]. by rewrite take_0, Hh.
  - destruct (at_level_lookup k heap Hred e m a ltac:(lia) Hlev) as [n Hn].
    pose proof (pow2_level k e ltac:(lia)) as Hpow.
    pose proof (pow2_pos d) as Hd.
    destruct Hlev as [Hm Ha]. pose proof Hred as [_ Hnodes].
    destruct (Hnodes _ _ Hn) as (_ & _ & Hint).
    destruct (Hint ltac:(lia)) as (Hl & Hr & _).
    cbn [frontier]. rewrite Hn, Hl, Hr.
    rewrite (IH (S e) (2 * m)), (IH (S e) (S (2 * m)));
      try lia; try (split; cbn [Nat.pow]; lia).
    replace (S (2 * m) * 2 ^ d) with (2 * m * 2 ^ d + 2 ^ d) by lia.
    rewrite <- drop_drop, take_take_drop.
    cbn [Nat.pow]. f_equal; [lia|]. f_equal. lia.
Qed.

Lemma built_frontier :
  frontier heap k (Some (2 * (2 ^ k - 1))) = simple_hash <$> padded.
Proof.
  pose proof (pow2_pos k).
  rewrite (frontier_level k 0 0); [|lia|split; simpl; lia].
  simpl drop. apply take_ge. rewrite length_fmap. lia.
Qed.

End Leaves.

(** In a perfect subtree whose inner nodes carry the combination of their
    children, the hash at the top is the halving digest of the frontier. *)
Lemma perfect_hash (heap : store) (d : nat) : forall a,
  (forall x n, heap !! x = Some n ->
     is_leaf n = true
     \/ exists l r ln rn,
         left n = Some l /\ right n = Some r
         /\ heap !! l = Some ln /\ heap !! r = Some rn
         /\ hash n = combine_hashes (hash ln) (hash rn)) ->
  is_perfect heap d (Some a) = true ->
  exists n, heap !! a = Some n
            /\ length (frontier heap d (Some a)) = 2 ^ d
            /\ hash n = merkle_root d (frontier heap d (Some a)).
Proof.
  induction d as [|d IH]; intros a Hcons Hperf.
  - cbn [is_perfect] in Hperf. cbn [frontier].
    destruct (heap !! a) as [n|] eqn:Hn; [|done]. by exists n.
  - cbn [is_perfect] in Hperf. cbn [frontier].
    destruct (heap !! a) as [n|] eqn:Hn; [|done].
    apply andb_true_iff in Hperf as [Hpl Hpr].
    destruct (Hcons _ _ Hn) as [Hleaf | (l & r & ln & rn & Hl & Hr & Hln & Hrn & Hh)].
    { unfold is_leaf in Hleaf. apply andb_true_iff in Hleaf as [Hnone _].
      apply bool_decide_eq_true in Hnone. rewrite Hnone in Hpl. by destruct d. }
    rewrite Hl in Hpl |- *. rewrite Hr in Hpr |- *.
    destruct (IH l Hcons Hpl) as (ln' & Hln' & Hlenl & Hhl).
    destruct (IH r Hcons Hpr) as (rn' & Hrn' & Hlenr & Hhr).
    rewrite Hln in Hln'. injection Hln' as <-.
    rewrite Hrn in Hrn'. injection Hrn' as <-.
    exists n. split; [done|]. split.
    + rewrite length_app, Hlenl, Hlenr. cbn [Nat.pow]. lia.
    + cbn [merkle_root]. rewrite <- Hlenl at 1 2.
      by rewrite take_app_length, drop_app_length, <- Hhl, <- Hhr.
Qed.

(** X2: the leaves of the built tree are the padded blocks in input
    order: the node at address [j] is a leaf with the hash of block [j],
    and the frontier of the root is the list of the block hashes. *)
Theorem build_keeps_block_order (blocks : list string) :
  (1 <= size blocks <= 2 ^ 30)%Z ->
  exists (k : nat) (padded : list string) (heap : store) (root : nat),
    pad_loop (length blocks) blocks = Returns padded
    /\ length padded = 2 ^ k
    /\ build_merkle_tree blocks = Returns (heap, Some root)
    /\ (forall j b, padded !! j = Some b ->
         exists n, heap !! j = Some n /\ is_leaf n = true
                   /\ hash n = simple_hash b)
    /\ frontier heap k (Some root) = simple_hash <$> padded.
Proof.
  intros Hn.
  destruct (build_spec_leaves blocks Hn)
    as (k & padded & heap & Hpad & _ & Hlen & Hb & Hred & Hleaves).
  exists k, padded, heap, (2 * (2 ^ k - 1)).
  split; [done|]. split; [done|]. split; [done|]. split.
  - intros j b Hj. destruct (Hleaves _ _ Hj) as (n & Hx & Hh).
    exists n. split; [done|]. split; [|done].
    pose proof (lookup_lt_Some _ _ _ Hj) as Hlt. rewrite Hlen in Hlt.
    destruct Hred as [_ Hnodes].
    destruct (Hnodes _ _ Hx) as (_ & Hleaf & _).
    destruct (Hleaf Hlt) as [Hl Hr]. unfold is_leaf. by rewrite Hl, Hr.
  - by apply built_frontier.
Qed.

(** X3: the hash of the root is the halving digest of the hashes of the
    padded blocks, so it depends on the padded block list only. *)
Theorem build_root_hash (blocks : list string) :
  (1 <= size blocks <= 2 ^ 30)%Z ->
  exists (k : nat) (padded : list string) (heap : store) (root : nat)
         (rn : MerkleNode),
    pad_loop (length blocks) blocks = Returns padded
    /\ length padded = 2 ^ k
    /\ build_merkle_tree blocks = Returns (heap, Some root)
    /\ heap !! root = Some rn
    /\ hash rn = merkle_root k (simple_hash <$> padded).
Proof.
  intros Hn.
  destruct (build_spec_leaves blocks Hn)
    as (k & padded & heap & Hpad & _ & Hlen & Hb & Hred & Hleaves).
  destruct (perfect_hash heap k (2 * (2 ^ k - 1)) (built_hashes k heap Hred)
              (built_root_perfect k heap Hred)) as (rn & Hrn & _ & Hh).
  exists k, padded, heap, (2 * (2 ^ k - 1)), rn.
  split; [done|]. split; [done|]. split; [done|]. split; [done|].
  by rewrite Hh, (built_frontier k heap padded Hred Hlen Hleaves).
Qed.

Lemma pad_loop_padded (fuel : nat) (padded : list string) (k : Z) :
  (0 <= k <= 63)%Z -> size padded = (2 ^ k)%Z ->
  pad_loop fuel padded = Returns padded.
Proof.
  intros Hk Hsize. pose proof (pow2_bound k Hk).
  pose proof (Z.pow_pos_nonneg 2 k ltac:(lia) ltac:(lia)).
  rewrite pad_loop_unfold, size_t_pred, Hsize, land_pred_pow2 by lia. done.
Qed.

(** X4: the sentinel blocks are ordinary blocks: a list and the same list
    with its padding written out are built into the same tree. *)
Theorem build_padding_is_data (blocks : list string) :
  (1 <= size blocks <= 2 ^ 30)%Z ->
  exists (k extra : nat),
    length blocks + extra = 2 ^ k
    /\ extra < length blocks
    /\ pad_loop (length blocks) blocks
       = Returns (blocks ++ replicate extra "_"%string)
    /\ build_merkle_tree (blocks ++ replicate extra "_"%string)
       = build_merkle_tree blocks.
Proof.
  intros Hn.
  destruct (pad_loop_spec blocks ltac:(lia)) as (k & Hrun & Hp & Hlow).
  set (extra := Z.to_nat (2 ^ Z.of_nat k - size blocks)) in *.
  assert (size (blocks ++ replicate extra "_"%string) = 2 ^ Z.of_nat k)%Z as Hsize.
  { unfold extra, size in *. rewrite length_app, length_replicate. lia. }
  exists k, extra. split; [|split; [|split; [done|]]].
  - apply Nat2Z.inj. rewrite Nat2Z.inj_pow, Nat2Z.inj_add.
    unfold extra, size in *. change (Z.of_nat 2) with 2%Z. lia.
  - destruct (decide (Z.of_nat k = 0%Z)) as [H0 | H0].
    + assert (2 ^ Z.of_nat k = 1)%Z as Hone by (by rewrite H0).
      unfold extra, size in *. lia.
    + destruct Hlow as [? | Hlow]; [done|].
      assert (2 ^ Z.of_nat k = 2 * 2 ^ (Z.of_nat k - 1))%Z as Hdbl.
      { rewrite <- Z.pow_succ_r by lia. f_equal. lia. }
      unfold extra, size in *. lia.
  - assert (2 ^ Z.of_nat k <= 2 ^ 30)%Z as H30
      by (apply (pow2_minimal (size blocks)); auto; lia).
    assert (Z.of_nat k <= 63)%Z as H63.
    { destruct (decide (Z.of_nat k <= 30)%Z); [lia|].
      assert (2 ^ 31 <= 2 ^ Z.of_nat k)%Z by (apply Z.pow_le_mono_r; lia). lia. }
    unfold build_merkle_tree. rewrite Hrun.
    by rewrite (pad_loop_padded _ _ (Z.of_nat k)) by (done || lia).
Qed.

(** ** Further properties of proofs and verification *)

Lemma ordered_pairs_spec (heap : store) :
  ordered_pairs heap = true ->
  forall x n l r ln rn,
    heap !! x = Some n -> left n = Some l -> right n = Some r ->
    heap !! l = Some ln -> heap !! r = Some rn ->
    (hash rn <? hash ln)%string = false.
Proof.
  intros Hord x n l r ln rn Hx Hl Hr Hln Hrn.
  unfold ordered_pairs in Hord. rewrite forallb_forall in Hord.
  pose proof (Hord n ltac:(by eapply list_elem_of_In, list_elem_of_lookup_2)) as H.
  unfold pair_ordered in H. rewrite Hl, Hr, Hln, Hrn in H.
  by apply negb_true_iff in H.
Qed.

Lemma ordered_step (a b : string) :
  (b <? a)%string = false ->
  verify_step a b = combine_hashes a b /\ verify_step b a = combine_hashes a b.
Proof.
  intros Hba. unfold verify_step. rewrite Hba. split; [|done].
  destruct (a <? b)%string eqn:Hab; [done|].
  by rewrite (ltb_total _ _ Hab Hba).
Qed.

Lemma proof_loop_acc (heap : store) (fuel : nat) :
  forall (a : ptr) (acc : list string),
    proof_loop fuel heap a acc
    = match proof_loop fuel heap a [] with
      | Returns sibs => Returns (acc ++ sibs)
      | Throws w => Throws w
      | Undefined u => Undefined u
      | OutOfFuel => OutOfFuel
      end.
Proof.
  induction fuel as [|fuel IH]; intros a acc.
  - simpl. destruct (deref heap a) as [n| | |]; simpl; try done.
    destruct (parent n); [done|]. by rewrite app_nil_r.
  - simpl. destruct (deref heap a) as [n| | |]; simpl; try done.
    destruct (parent n) as [pa|]; [|by rewrite app_nil_r].
    destruct (deref heap (Some pa)) as [pn| | |]; simpl; try done.
    destruct (deref heap _) as [sn| | |]; simpl; try done.
    rewrite (IH (Some pa) (acc ++ [hash sn])), (IH (Some pa) [hash sn]).
    destruct (proof_loop fuel heap (Some pa) []); try done.
    by rewrite <- app_assoc.
Qed.

Section BuiltOrdered.

Variables (k : nat) (heap : store).
Hypothesis Hred : reduced (2 ^ k) (2 ^ k - 1) heap.
Hypothesis Hord : ordered_pairs heap = true.

(** When no left child compares larger than its right sibling, the
    recomputation from any node along its proof ends in the root hash. *)
Lemma walk_verifies (e : nat) :
  forall (fuel a m : nat) (acc : list string) (n : MerkleNode),
    e <= k -> at_level k e m a -> e <= fuel -> heap !! a = Some n ->
    exists sibs rootn,
      proof_loop fuel heap (Some a) acc = Returns (acc ++ sibs)
      /\ heap !! (2 * (2 ^ k - 1)) = Some rootn
      /\ verify_loop (hash n) sibs = hash rootn.
Proof.
  induction e as [|e IH]; intros fuel a m acc n He Hlev Hfuel Hn.
  - destruct Hlev as [Hm Ha]. pose proof Hred as [_ Hnodes].
    destruct (Hnodes _ _ Hn) as (Hpar & _ & _).
    pose proof (pow2_pos k). cbn [Nat.pow] in Hm, Ha.
    rewrite decide_False in Hpar by lia.
    exists [], n. rewrite (proof_loop_root _ _ _ _ _ Hn Hpar), app_nil_r.
    split; [done|]. split; [|done]. by replace (2 * (2 ^ k - 1)) with a by lia.
  - pose proof (pow2_level k e He) as Hpow. pose proof (pow2_pos e).
    destruct Hlev as [Hm Ha]. cbn [Nat.pow] in Hm, Ha.
    pose proof Hred as [Hlen Hnodes].
    destruct (Hnodes _ _ Hn) as (Hpar & _ & _).
    rewrite decide_True in Hpar by lia.
    pose proof (Nat.div_mod_eq a 2). pose proof (Nat.mod_upper_bound a 2).
    pose proof (Nat.div_mod_eq m 2). pose proof (Nat.mod_upper_bound m 2).
    assert (at_level k e (m / 2) (2 ^ k + a / 2)) as Hlev' by (split; lia).
    destruct (at_level_lookup k heap Hred e _ _ ltac:(lia) Hlev') as [pn Hpn].
    destruct (Hnodes _ _ Hpn) as (_ & _ & Hint).
    destruct (Hint ltac:(lia)) as (Hl & Hr & ln & rn & Hln & Hrn & Hh).
    pose proof (ordered_pairs_spec heap Hord _ _ _ _ _ _ Hpn Hl Hr Hln Hrn) as Hlr.
    destruct (ordered_step _ _ Hlr) as [Hleft Hright].
    assert (exists s sn,
              (if decide (left pn = Some a) then right pn else left pn) = Some s
              /\ heap !! s = Some sn
              /\ verify_step (hash n) (hash sn) = hash pn)
      as (s & sn & Hs & Hsn & Hstep).
    { destruct (decide (a mod 2 = 0)) as [Heven|Hodd].
      - replace (2 * (2 ^ k + a / 2 - 2 ^ k)) with a in Hl, Hln by lia.
        rewrite Hn in Hln. injection Hln as <-.
        exists (S (2 * (2 ^ k + a / 2 - 2 ^ k))), rn.
        rewrite decide_True by done. by rewrite Hleft, Hh.
      - replace (S (2 * (2 ^ k + a / 2 - 2 ^ k))) with a in Hr, Hrn by lia.
        rewrite Hn in Hrn. injection Hrn as <-.
        exists (2 * (2 ^ k + a / 2 - 2 ^ k)), ln.
        rewrite decide_False by (rewrite Hl; intros [= Heq]; lia).
        by rewrite Hright, Hh. }
    destruct fuel as [|fuel]; [lia|].
    destruct (IH fuel _ _ (acc ++ [hash sn]) pn ltac:(lia) Hlev' ltac:(lia) Hpn)
      as (sibs & rootn & Hrun & Hroot & Hver).
    exists (hash sn :: sibs), rootn.
    rewrite (proof_loop_step _ _ _ _ _ _ _ _ _ Hn Hpar Hpn Hs Hsn), Hrun.
    rewrite <- app_assoc. split; [done|]. split; [done|].
    cbn [verify_loop]. by rewrite Hstep.
Qed.

Lemma ordered_round_trip (L : nat) (n : MerkleNode) :
  heap !! L = Some n -> is_leaf n = true ->
  exists proof,
    generate_merkle_proof heap (Some (2 * (2 ^ k - 1))) (Some L) = Returns proof
    /\ verify heap (Some (2 * (2 ^ k - 1))) (Some L) proof = Returns true.
Proof.
  intros HL Hleaf. pose proof (at_level_leaf k heap Hred L n HL Hleaf) as Hlev.
  pose proof Hred as [Hlen _]. pose proof (Nat.pow_gt_lin_r 2 k ltac:(lia)).
  destruct (walk_verifies k (length heap) L L [] n ltac:(lia) Hlev ltac:(lia) HL)
    as (sibs & rootn & Hrun & Hroot & Hver).
  exists sibs. split; [done|].
  rewrite (verify_returns _ _ _ _ _ _ Hroot HL), Hver.
  by rewrite String.eqb_refl.
Qed.

End BuiltOrdered.

(** X5: when in the built tree no left child has a hash that compares
    larger than the hash of its right sibling, every leaf's generated
    proof is accepted by [verify]. *)
Theorem ordered_tree_round_trip (blocks : list string) (heap : store) (root : ptr) :
  (1 <= size blocks <= 2 ^ 30)%Z ->
  build_merkle_tree blocks = Returns (heap, root) ->
  ordered_pairs heap = true ->
  forall L n, heap !! L = Some n -> is_leaf n = true ->
    exists proof,
      generate_merkle_proof heap root (Some L) = Returns proof
      /\ verify heap root (Some L) proof = Returns true.
Proof.
  intros Hn Hbuild Hord L n HL Hleaf.
  destruct (build_spec blocks Hn) as (k & padded & heap' & _ & _ & Hb & Hred).
  rewrite Hbuild in Hb. injection Hb as -> ->.
  by apply (ordered_round_trip k heap' Hred Hord L n).
Qed.

(** X6: the two children of a node have proofs that differ in the first
    entry only, each starting with the hash of the other, and [verify]
    gives the same answer for both. *)
Theorem sibling_proofs_agree (heap : store) (root l r pa : nat)
    (rootn ln rn pn : MerkleNode) (proof_l proof_r : list string) :
  heap !! root = Some rootn -> heap !! l = Some ln -> heap !! r = Some rn ->
  heap !! pa = Some pn ->
  parent ln = Some pa -> parent rn = Some pa ->
  left pn = Some l -> right pn = Some r -> l <> r ->
  generate_merkle_proof heap (Some root) (Some l) = Returns proof_l ->
  generate_merkle_proof heap (Some root) (Some r) = Returns proof_r ->
  head proof_l = Some (hash rn) /\ head proof_r = Some (hash ln)
  /\ tail proof_l = tail proof_r
  /\ verify heap (Some root) (Some l) proof_l
     = verify heap (Some root) (Some r) proof_r.
Proof.
  intros Hroot Hl Hr Hpa Hpl Hpr Hleft Hright Hne Hgl Hgr.
  unfold generate_merkle_proof in Hgl, Hgr.
  destruct (length heap) as [|fuel] eqn:Hlen.
  { apply lookup_lt_Some in Hroot. lia. }
  rewrite (proof_loop_step _ _ _ _ r ln pn rn _ Hl Hpl Hpa) in Hgl;
    [|by rewrite decide_True | done].
  rewrite (proof_loop_step _ _ _ _ l rn pn ln _ Hr Hpr Hpa) in Hgr;
    [|by rewrite decide_False by congruence | done].
  rewrite proof_loop_acc in Hgl, Hgr.
  destruct (proof_loop fuel heap (Some pa) []) as [sibs| | |]; try done.
  injection Hgl as <-. injection Hgr as <-.
  split; [done|]. split; [done|]. split; [done|].
  rewrite (verify_returns _ _ _ _ _ _ Hroot Hl), (verify_returns _ _ _ _ _ _ Hroot Hr).
  simpl. by rewrite verify_step_comm.
Qed.

Section BuiltNodes.

Variables (k : nat) (heap : store).
Hypothesis Hred : reduced (2 ^ k) (2 ^ k - 1) heap.

Lemma level_below (e : nat) : forall a,
  e <= k -> 2 * 2 ^ k <= a + 2 * 2 ^ e -> a + 1 < 2 * 2 ^ k ->
  exists e' m, e' <= e /\ at_level k e' m a.
Proof.
  induction e as [|e IH]; intros a He Hlo Hhi.
  - exists 0, 0. split; [done|]. split; cbn [Nat.pow] in *; lia.
  - cbn [Nat.pow] in Hlo.
    destruct (decide (2 * 2 ^ k <= a + 2 * 2 ^ e)) as [Hup|Hhere].
    + destruct (IH a ltac:(lia) Hup Hhi) as (e' & m & He' & Hlev).
      exists e', m. split; [lia | done].
    + exists (S e), (a + 4 * 2 ^ e - 2 * 2 ^ k).
      split; [done|]. split; cbn [Nat.pow]; lia.
Qed.

Lemma built_proof_any (x : nat) (n : MerkleNode) :
  heap !! x = Some n ->
  exists proof,
    generate_merkle_proof heap (Some (2 * (2 ^ k - 1))) (Some x) = Returns proof
    /\ length proof <= k
    /\ ancestor heap (length proof) x = Some (2 * (2 ^ k - 1))
    /\ (parent n = None -> proof = []).
Proof.
  intros Hx. pose proof Hred as [Hlen Hnodes].
  pose proof (lookup_lt_Some _ _ _ Hx) as Hlt. pose proof (pow2_pos k).
  destruct (level_below k x ltac:(lia) ltac:(lia) ltac:(lia))
    as (e & m & He & Hlev).
  pose proof (Nat.pow_gt_lin_r 2 k ltac:(lia)).
  destruct (proof_loop_level k heap Hred e (length heap) x m [] He Hlev ltac:(lia))
    as (sibs & Hrun & Hsibs & _ & Htop).
  exists sibs. split; [done|]. split; [lia|]. split; [by rewrite Hsibs|].
  intros Hnone. unfold generate_merkle_proof in Hrun.
  rewrite (proof_loop_root _ _ _ _ _ Hx Hnone) in Hrun. by injection Hrun.
Qed.

End BuiltNodes.

(** X7: [generate_merkle_proof] returns for every node of the built tree,
    not only for leaves: the proof has at most [k] entries, as many as
    there are parent links from the node to the root, and it is empty for
    the root. *)
Theorem proof_for_every_node (blocks : list string) :
  (1 <= size blocks <= 2 ^ 30)%Z ->
  exists (k : nat) (padded : list string) (heap : store) (root : nat),
    pad_loop (length blocks) blocks = Returns padded
    /\ length padded = 2 ^ k
    /\ build_merkle_tree blocks = Returns (heap, Some root)
    /\ (forall x n, heap !! x = Some n ->
         exists proof,
           generate_merkle_proof heap (Some root) (Some x) = Returns proof
           /\ length proof <= k
           /\ ancestor heap (length proof) x = Some root)
    /\ generate_merkle_proof heap (Some root) (Some root) = Returns [].
Proof.
  intros Hn.
  destruct (build_spec blocks Hn) as (k & padded & heap & Hpad & Hlen & Hb & Hred).
  exists k, padded, heap, (2 * (2 ^ k - 1)).
  split; [done|]. split; [done|]. split; [done|]. split.
  - intros x n Hx.
    destruct (built_proof_any k heap Hred x n Hx) as (proof & Hg & Hl & Ha & _).
    by exists proof.
  - pose proof Hred as [Hheap Hnodes]. pose proof (pow2_pos k).
    destruct (lookup_lt_is_Some_2 heap (2 * (2 ^ k - 1)) ltac:(lia)) as [rn Hrn].
    destruct (built_proof_any k heap Hred _ rn Hrn) as (proof & Hg & _ & _ & Hroot).
    destruct (Hnodes _ _ Hrn) as (Hpar & _).
    rewrite decide_False in Hpar by lia. by rewrite <- (Hroot Hpar).
Qed.

(** ** displayTree *)

Lemma indented_line (i j : nat) (rest : string) :
  String.prefix (indentation i) (indentation j +:+ "|-- " +:+ rest)
  = bool_decide (i <= j).
Proof.
  revert i. induction j as [|j IH]; intros [|i]; try done.
  change (String.prefix (indentation i) (indentation j +:+ "|-- " +:+ rest)
          = bool_decide (S i <= S j)).
  rewrite IH. apply bool_decide_ext. lia.
Qed.

Lemma perfect_child (heap : store) (d : nat) (p : ptr) :
  is_perfect heap d p = true -> exists x, p = Some x.
Proof. destruct p as [x|]; [eauto | by destruct d]. Qed.

Lemma perfect_unique (heap : store) (d : nat) : forall d' a,
  is_perfect heap d (Some a) = true -> is_perfect heap d' (Some a) = true ->
  d = d'.
Proof.
  induction d as [|d IH]; intros [|d'] a H1 H2; cbn [is_perfect] in H1, H2;
    destruct (heap !! a) as [n|]; try done.
  - apply andb_true_iff in H2 as [H2 _].
    apply andb_true_iff in H1 as [H1 _]. apply bool_decide_eq_true in H1.
    rewrite H1 in H2. by destruct d'.
  - apply andb_true_iff in H1 as [H1 _].
    apply andb_true_iff in H2 as [H2 _]. apply bool_decide_eq_true in H2.
    rewrite H2 in H1. by destruct d.
  - apply andb_true_iff in H1 as [H1 _]. apply andb_true_iff in H2 as [H2 _].
    destruct (perfect_child _ _ _ H1) as [l Hl]. rewrite Hl in H1, H2.
    f_equal. by apply (IH d' l).
Qed.

(** A perfect subtree of height [d] has a left spine of [d + 1] different
    nodes, so the store has more than [d] nodes. *)
Lemma perfect_spine (heap : store) (d : nat) : forall a,
  is_perfect heap d (Some a) = true ->
  exists spine : list nat,
    length spine = S d /\ NoDup spine
    /\ forall x, x ∈ spine ->
        x < length heap /\ exists j, j <= d /\ is_perfect heap j (Some x) = true.
Proof.
  induction d as [|d IH]; intros a Hperf.
  - exists [a]. split; [done|]. split; [apply NoDup_singleton|].
    intros x ->%list_elem_of_singleton. split; [|by exists 0].
    cbn [is_perfect] in Hperf. destruct (heap !! a) eqn:Ha; [|done].
    by eapply lookup_lt_Some.
  - pose proof Hperf as Hperf'. cbn [is_perfect] in Hperf.
    destruct (heap !! a) as [n|] eqn:Ha; [|done].
    apply andb_true_iff in Hperf as [Hpl _].
    destruct (perfect_child _ _ _ Hpl) as [l Hl]. rewrite Hl in Hpl.
    destruct (IH l Hpl) as (spine & Hlen & Hnd & Hall).
    exists (a :: spine). split; [simpl; lia|]. split.
    + apply NoDup_cons. split; [|done]. intros Hin.
      destruct (Hall _ Hin) as (_ & j & Hj & Hpj).
      pose proof (perfect_unique _ _ _ _ Hperf' Hpj). lia.
    + intros x [-> | Hin]%elem_of_cons.
      * split; [by eapply lookup_lt_Some | by exists (S d)].
      * destruct (Hall _ Hin) as (Hlt & j & Hj & Hpj).
        split; [done|]. exists j. split; [lia | done].
Qed.

Lemma perfect_height_lt (heap : store) (d a : nat) :
  is_perfect heap d (Some a) = true -> d < length heap.
Proof.
  intros Hperf. destruct (perfect_spine heap d a Hperf) as (spine & Hlen & Hnd & Hall).
  assert (spine ⊆+ seq 0 (length heap)) as Hsub.
  { apply NoDup_submseteq; [done|]. intros x Hx. apply elem_of_seq.
    destruct (Hall x Hx). lia. }
  apply submseteq_length in Hsub. rewrite length_seq in Hsub. lia.
Qed.

(** The display of a perfect subtree: one line per node, the top node
    first, and the lines of the deepest indentation are those of the
    frontier from left to right. *)
Lemma display_perfect (heap : store) (d : nat) :
  forall (fuel a : nat) (level : Z),
    is_perfect heap d (Some a) = true -> d < fuel ->
    (0 <= level)%Z -> (level + Z.of_nat d <= INT_MAX)%Z ->
    exists n lines,
      heap !! a = Some n
      /\ displayTree_rec fuel heap (Some a) level = Returns lines
      /\ length lines = 2 ^ S d - 1
      /\ head lines = Some (tree_line level (hash n))
      /\ filter (fun line => indented (Z.to_nat level + d) line = true) lines
         = tree_line (level + Z.of_nat d) <$> frontier heap d (Some a).
Proof.
  induction d as [|d IH]; intros fuel a level Hperf Hfuel Hlevel Hmax.
  - cbn [is_perfect] in Hperf. cbn [frontier].
    destruct (heap !! a) as [n|] eqn:Ha; [|done].
    destruct fuel as [|fuel]; [lia|].
    unfold is_leaf in Hperf. apply andb_true_iff in Hperf as [Hl Hr].
    apply bool_decide_eq_true in Hl, Hr.
    exists n, [tree_line level (hash n)]. split; [done|]. split.
    { cbn [displayTree_rec deref]. rewrite Ha. simpl. by rewrite Hl, Hr. }
    split; [done|]. split; [done|].
    rewrite Z.add_0_r, Nat.add_0_r. cbn [fmap list_fmap].
    assert (indented (Z.to_nat level) (tree_line level (hash n)) = true) as Hhead.
    { unfold indented, tree_line. rewrite indented_line.
      by apply bool_decide_eq_true_2. }
    by rewrite filter_cons, filter_nil, decide_True.
  - cbn [is_perfect] in Hperf. cbn [frontier].
    destruct (heap !! a) as [n|] eqn:Ha; [|done].
    destruct fuel as [|fuel]; [lia|].
    apply andb_true_iff in Hperf as [Hpl Hpr].
    destruct (perfect_child _ _ _ Hpl) as [l Hl].
    destruct (perfect_child _ _ _ Hpr) as [r Hr].
    rewrite Hl in Hpl |- *. rewrite Hr in Hpr |- *.
    destruct (IH fuel l (level + 1)%Z Hpl ltac:(lia) ltac:(lia) ltac:(lia))
      as (ln & shown_l & Hln & Hdl & Hlenl & _ & Hfl).
    destruct (IH fuel r (level + 1)%Z Hpr ltac:(lia) ltac:(lia) ltac:(lia))
      as (rn & shown_r & Hrn & Hdr & Hlenr & _ & Hfr).
    exists n, (tree_line level (hash n) :: shown_l ++ shown_r).
    split; [done|]. split.
    { cbn [displayTree_rec deref]. rewrite Ha. simpl. rewrite Hl, Hr. simpl.
      destruct (Z.ltb_spec INT_MAX (level + 1)); [lia|].
      rewrite Hdl. simpl. by rewrite Hdr. }
    pose proof (pow2_pos d). split.
    { cbn [length]. rewrite length_app, Hlenl, Hlenr. cbn [Nat.pow]. lia. }
    split; [done|].
    assert (indented (Z.to_nat level + S d) (tree_line level (hash n)) = false)
      as Hhead.
    { unfold indented, tree_line. rewrite indented_line.
      apply bool_decide_eq_false_2. lia. }
    rewrite filter_cons, filter_app, decide_False by (by rewrite Hhead).
    replace (Z.to_nat level + S d) with (Z.to_nat (level + 1) + d) by lia.
    rewrite Hfl, Hfr, fmap_app.
    by replace (level + 1 + Z.of_nat d)%Z with (level + Z.of_nat (S d))%Z by lia.
Qed.

(** X8: on the top of a perfect subtree of height [d], [displayTree]
    returns one line per node, [2^(d+1) - 1] in all, starting with the
    line of the top node; the most indented lines are those of the
    frontier, from left to right.  On [nullptr] it writes nothing. *)
Theorem displayTree_perfect (heap : store) (d a : nat) (level : Z) :
  is_perfect heap d (Some a) = true ->
  (0 <= level)%Z -> (level + Z.of_nat d <= INT_MAX)%Z ->
  displayTree heap None level = Returns []
  /\ exists n lines,
      heap !! a = Some n
      /\ displayTree heap (Some a) level = Returns lines
      /\ length lines = 2 ^ S d - 1
      /\ head lines = Some (tree_line level (hash n))
      /\ filter (fun line => indented (Z.to_nat level + d) line = true) lines
         = tree_line (level + Z.of_nat d) <$> frontier heap d (Some a).
Proof.
  intros Hperf Hlevel Hmax. split; [by unfold displayTree; destruct (length heap)|].
  apply display_perfect; try done. by eapply perfect_height_lt.
Qed.

(** X9: the display of the built tree from its root has one line per
    allocated node; the first line is the root hash without indentation
    and the lines indented [k] levels are the hashes of the padded blocks
    in input order. *)
Theorem displayTree_built (blocks : list string) :
  (1 <= size blocks <= 2 ^ 30)%Z ->
  exists (k : nat) (padded : list string) (heap : store) (root : nat)
         (rn : MerkleNode) (lines : list string),
    pad_loop (length blocks) blocks = Returns padded
    /\ length padded = 2 ^ k
    /\ build_merkle_tree blocks = Returns (heap, Some root)
    /\ heap !! root = Some rn
    /\ displayTree heap (Some root) 0 = Returns lines
    /\ length lines = length heap
    /\ head lines = Some ("|-- " +:+ hash rn)
    /\ filter (fun line => indented k line = true) lines
       = (fun b => tree_line (Z.of_nat k) (simple_hash b)) <$> padded.
Proof.
  intros Hn.
  destruct (build_spec_leaves blocks Hn)
    as (k & padded & heap & Hpad & _ & Hlen & Hb & Hred & Hleaves).
  pose proof (built_root_perfect k heap Hred) as Hperf.
  pose proof (perfect_height_lt _ _ _ Hperf) as Hheight.
  pose proof Hred as [Hheap _]. pose proof (pow2_pos k).
  assert (Z.of_nat k <= INT_MAX)%Z as Hk.
  { pose proof (Nat.pow_gt_lin_r 2 k ltac:(lia)).
    assert (Z.of_nat (length padded) <= 2 ^ 30)%Z as Hp30.
    { destruct (pad_loop_spec blocks ltac:(lia)) as (k' & Hrun & Hp & Hlow).
      rewrite Hpad in Hrun. injection Hrun as Hrun.
      assert (2 ^ Z.of_nat k' <= 2 ^ 30)%Z
        by (apply (pow2_minimal (size blocks)); auto; lia).
      rewrite Hrun, length_app, length_replicate. unfold size in *. lia. }
    unfold INT_MAX. lia. }
  destruct (display_perfect heap k (length heap) _ 0%Z Hperf Hheight
              ltac:(lia) ltac:(lia))
    as (rn & lines & Hrn & Hshow & Hlines & Hhead & Hdeep).
  exists k, padded, heap, (2 * (2 ^ k - 1)), rn, lines.
  split; [done|]. split; [done|]. split; [done|]. split; [done|].
  split; [done|]. split; [cbn [Nat.pow] in Hlines; lia|]. split; [done|].
  rewrite (built_frontier k heap padded Hred Hlen Hleaves) in Hdeep.
  change (Z.to_nat 0 + k) with k in Hdeep. rewrite Hdeep.
  rewrite <- list_fmap_compose. done.
Qed.

(** The run of [main], for every hash function: it returns 0 after
    writing the header and the seven nodes of its tree in preorder, the
    root, then each pair node followed by its two leaves, indented four
    spaces per level. *)
Theorem main_output :
  main
  = Returns
      (let h0 := simple_hash "Soham is goated" in
       let h1 := simple_hash "Adithya is kinda lame" in
       let h2 := simple_hash "another example data block" in
       let h3 := simple_hash "boom" in
       let n01 := combine_hashes h0 h1 in
       let n23 := combine_hashes h2 h3 in
       ["Merkle Tree:"%string;
        "|-- " +:+ combine_hashes n01 n23;
        "    |-- " +:+ n01;
        "        |-- " +:+ h0;
        "        |-- " +:+ h1;
        "    |-- " +:+ n23;
        "        |-- " +:+ h2;
        "        |-- " +:+ h3],
       0%Z).
Proof. reflexivity. Qed.

(** ** Digests *)

Lemma to_string_inj (n m : N) : to_string n = to_string m -> n = m.
Proof.
  unfold to_string. intros H.
  apply (f_equal NilEmpty.uint_of_string) in H. rewrite !NilEmpty.usu in H.
  injection H as H. apply (f_equal N.of_uint) in H.
  by rewrite !DecimalN.Unsigned.of_to in H.
Qed.

(** X10: writing the hash value in decimal adds no collision: two blocks
    have the same digest exactly when the hash function gives them the
    same value, and two pairs of digests combine to the same digest
    exactly when it gives their concatenations the same value. *)
Theorem digests_collide_with_hasher (a b c d : string) :
  (simple_hash a = simple_hash b <-> hasher a = hasher b)
  /\ (combine_hashes a b = combine_hashes c d
      <-> hasher (a +:+ b) = hasher (c +:+ d)).
Proof.
  unfold simple_hash, combine_hashes.
  split; split; intros H; try (by apply to_string_inj); by rewrite H.
Qed.

(** X11: [verify] looks at the ordered concatenation only.  A leaf hash
    and a proof entry are accepted against a root that combines [a] and
    [b] as soon as, put smaller first, they concatenate to the string
    [a ++ b], whether or not they are [a] and [b]. *)
Theorem resplit_entry_accepted (heap : store) (root leaf : nat)
    (rn ln : MerkleNode) (a b entry : string) :
  heap !! root = Some rn -> heap !! leaf = Some ln ->
  hash rn = combine_hashes a b ->
  (if (hash ln <? entry)%string then hash ln +:+ entry else entry +:+ hash ln)
  = a +:+ b ->
  verify heap (Some root) (Some leaf) [entry] = Returns true.
Proof.
  intros Hr Hl Hroot Hcat. rewrite (verify_returns _ _ _ _ _ _ Hr Hl).
  f_equal. apply String.eqb_eq. rewrite Hroot. simpl.
  unfold verify_step, combine_hashes.
  destruct (hash ln <? entry)%string; by rewrite Hcat.
Qed.

(** ** Tampering *)

Lemma append_nil_l (y : string) : ("" +:+ y)%string = y.
Proof. reflexivity. Qed.









End Merkle.


(** ** Evaluations on concrete inputs *)

(** C1: on the blocks of [main], hashed with FNV-1a, the proof generated
    for the third leaf is rejected by [verify]: the leaf's digest is
    larger than its sibling's, so [verify] recombines the pair in the
    order opposite to the one [build_merkle_tree] used. *)
Theorem genuine_proof_rejected :
  exists (heap : store) (root : ptr) (n : MerkleNode) (proof : list string),
    build_merkle_tree fnv1a64 main_data_blocks = Returns (heap, root)
    /\ heap !! 2 = Some n
    /\ is_leaf n = true
    /\ hash n = simple_hash fnv1a64 "another example data block"
    /\ generate_merkle_proof heap root (Some 2) = Returns proof
    /\ verify fnv1a64 heap root (Some 2) proof = Returns false.
Proof. vm_compute. eexists _, _, _, _. repeat split; reflexivity. Qed.

(** C2, as stated, fails: on zero blocks nothing is thrown; the call ends
    in an out-of-range read. *)
Lemma empty_input_raises_nothing :
  build_merkle_tree fnv1a64 [] = Undefined OutOfRange
  /\ build_merkle_tree fnv1a64 [] <> Throws "EmptyInputError".
Proof. split; [reflexivity | discriminate]. Qed.


Lemma padding_to_power_of_two_witness :
  (1 <= size abc_blocks <= 2 ^ 63)%Z
  /\ exists (k : nat) (padded : list string),
      pad_loop (length abc_blocks) abc_blocks = Returns padded
      /\ padded = abc_blocks
                  ++ replicate (Z.to_nat (2 ^ Z.of_nat k - size abc_blocks)) "_"%string
      /\ size padded = (2 ^ Z.of_nat k)%Z
      /\ (size abc_blocks <= 2 ^ Z.of_nat k)%Z
      /\ (forall j : Z, (0 <= j)%Z -> (size abc_blocks <= 2 ^ j)%Z ->
          (2 ^ Z.of_nat k <= 2 ^ j)%Z)
      /\ ((exists j : Z, (0 <= j)%Z /\ size abc_blocks = (2 ^ j)%Z) ->
          padded = abc_blocks).
Proof.
  assert (1 <= size abc_blocks <= 2 ^ 63)%Z as H by (vm_compute; split; discriminate).
  split; [exact H | exact (padding_to_power_of_two abc_blocks H)].
Defined.

Lemma proof_length_and_order_witness :
  (1 <= size abc_blocks <= 2 ^ 30)%Z
  /\ exists (k : nat) (padded : list string) (heap : store) (root : nat),
      pad_loop (length abc_blocks) abc_blocks = Returns padded
      /\ length padded = 2 ^ k
      /\ build_merkle_tree fnv1a64 abc_blocks = Returns (heap, Some root)
      /\ forall L n, heap !! L = Some n -> is_leaf n = true ->
          exists proof,
            generate_merkle_proof heap (Some root) (Some L) = Returns proof
            /\ length proof = k
            /\ (forall i, i < k ->
                 exists x, ancestor heap i L = Some x
                           /\ is_Some (proof !! i)
                           /\ sibling_hash heap x = proof !! i)
            /\ ancestor heap k L = Some root.
Proof.
  assert (1 <= size abc_blocks <= 2 ^ 30)%Z as H by (vm_compute; split; discriminate).
  split; [exact H | exact (proof_length_and_order fnv1a64 abc_blocks H)].
Defined.

Lemma built_tree_invariants_witness :
  (1 <= size abc_blocks <= 2 ^ 30)%Z
  /\ exists (k : nat) (padded : list string) (heap : store) (root : nat),
      pad_loop (length abc_blocks) abc_blocks = Returns padded
      /\ length padded = 2 ^ k
      /\ build_merkle_tree fnv1a64 abc_blocks = Returns (heap, Some root)
      /\ is_perfect heap k (Some root) = true
      /\ NoDup (subtree_nodes heap k (Some root))
      /\ (forall x, x ∈ subtree_nodes heap k (Some root) <-> x < length heap)
      /\ (forall x n, heap !! x = Some n ->
           is_leaf n = true
           \/ exists l r ln rn,
               left n = Some l /\ right n = Some r /\ l <> r
               /\ heap !! l = Some ln /\ heap !! r = Some rn
               /\ hash n = combine_hashes fnv1a64 (hash ln) (hash rn))
      /\ (forall x pa xn pn, heap !! x = Some xn -> heap !! pa = Some pn ->
           (left pn = Some x \/ right pn = Some x) <-> parent xn = Some pa).
Proof.
  assert (1 <= size abc_blocks <= 2 ^ 30)%Z as H by (vm_compute; split; discriminate).
  split; [exact H | exact (built_tree_invariants fnv1a64 abc_blocks H)].
Defined.

Lemma verify_follows_spec_witness :
  small_store !! 2 = Some root_one_two
  /\ small_store !! 0 = Some leaf_one
  /\ verify fnv1a64 small_store (Some 2) (Some 0) ["2"%string]
     = Returns (spec_verify fnv1a64 (hash root_one_two) (hash leaf_one) ["2"%string])
  /\ (verify fnv1a64 small_store (Some 2) (Some 0) ["2"%string] = Returns true
      <-> fold_left (spec_combine fnv1a64) ["2"%string] (hash leaf_one)
          = hash root_one_two).
Proof.
  split; [reflexivity|]. split; [reflexivity|].
  exact (verify_follows_spec fnv1a64 small_store 2 0 root_one_two leaf_one
           ["2"%string] eq_refl eq_refl).
Defined.

Lemma verify_total_witness :
  small_store !! 2 = Some root_one_two
  /\ small_store !! 1 = Some leaf_two
  /\ (exists b : bool,
        verify fnv1a64 small_store (Some 2) (Some 1) ["7"; "1"]%string = Returns b)
  /\ (verify fnv1a64 small_store (Some 2) (Some 1) [] = Returns true
      <-> hash leaf_two = hash root_one_two).
Proof.
  split; [reflexivity|]. split; [reflexivity|].
  exact (verify_total fnv1a64 small_store 2 1 root_one_two leaf_two
           ["7"; "1"]%string eq_refl eq_refl).
Defined.

Lemma verify_first_entry_symmetric_witness :
  small_store !! 2 = Some root_one_two
  /\ small_store !! 0 = Some leaf_one
  /\ small_store !! 1 = Some leaf_two
  /\ verify fnv1a64 small_store (Some 2) (Some 0) (hash leaf_two :: [])
     = verify fnv1a64 small_store (Some 2) (Some 1) (hash leaf_one :: []).
Proof.
  split; [reflexivity|]. split; [reflexivity|]. split; [reflexivity|].
  exact (verify_first_entry_symmetric fnv1a64 small_store 2 0 1 root_one_two
           leaf_one leaf_two [] eq_refl eq_refl eq_refl).
Defined.


(** ** Instances of the further properties *)

Lemma build_allocates_witness :
  (1 <= size abc_blocks <= 2 ^ 30)%Z
  /\ exists (padded : list string) (heap : store) (root : nat),
      pad_loop (length abc_blocks) abc_blocks = Returns padded
      /\ build_merkle_tree fnv1a64 abc_blocks = Returns (heap, Some root)
      /\ length heap = 2 * length padded - 1
      /\ S root = length heap
      /\ forall x n, heap !! x = Some n -> (parent n = None <-> x = root).
Proof.
  assert (1 <= size abc_blocks <= 2 ^ 30)%Z as H by (vm_compute; split; discriminate).
  split; [exact H | exact (build_allocates fnv1a64 abc_blocks H)].
Defined.

Lemma build_keeps_block_order_witness :
  (1 <= size abc_blocks <= 2 ^ 30)%Z
  /\ exists (k : nat) (padded : list string) (heap : store) (root : nat),
      pad_loop (length abc_blocks) abc_blocks = Returns padded
      /\ length padded = 2 ^ k
      /\ build_merkle_tree fnv1a64 abc_blocks = Returns (heap, Some root)
      /\ (forall j b, padded !! j = Some b ->
           exists n, heap !! j = Some n /\ is_leaf n = true
                     /\ hash n = simple_hash fnv1a64 b)
      /\ frontier heap k (Some root) = simple_hash fnv1a64 <$> padded.
Proof.
  assert (1 <= size abc_blocks <= 2 ^ 30)%Z as H by (vm_compute; split; discriminate).
  split; [exact H | exact (build_keeps_block_order fnv1a64 abc_blocks H)].
Defined.

Lemma build_root_hash_witness :
  (1 <= size abc_blocks <= 2 ^ 30)%Z
  /\ exists (k : nat) (padded : list string) (heap : store) (root : nat)
            (rn : MerkleNode),
      pad_loop (length abc_blocks) abc_blocks = Returns padded
      /\ length padded = 2 ^ k
      /\ build_merkle_tree fnv1a64 abc_blocks = Returns (heap, Some root)
      /\ heap !! root = Some rn
      /\ hash rn = merkle_root fnv1a64 k (simple_hash fnv1a64 <$> padded).
Proof.
  assert (1 <= size abc_blocks <= 2 ^ 30)%Z as H by (vm_compute; split; discriminate).
  split; [exact H | exact (build_root_hash fnv1a64 abc_blocks H)].
Defined.

Lemma build_padding_is_data_witness :
  (1 <= size abc_blocks <= 2 ^ 30)%Z
  /\ exists (k extra : nat),
      length abc_blocks + extra = 2 ^ k
      /\ extra < length abc_blocks
      /\ pad_loop (length abc_blocks) abc_blocks
         = Returns (abc_blocks ++ replicate extra "_"%string)
      /\ build_merkle_tree fnv1a64 (abc_blocks ++ replicate extra "_"%string)
         = build_merkle_tree fnv1a64 abc_blocks.
Proof.
  assert (1 <= size abc_blocks <= 2 ^ 30)%Z as H by (vm_compute; split; discriminate).
  split; [exact H | exact (build_padding_is_data fnv1a64 abc_blocks H)].
Defined.

Lemma ordered_tree_round_trip_witness :
  (1 <= size abc_blocks <= 2 ^ 30)%Z
  /\ exists (heap : store) (root : ptr),
      build_merkle_tree fnv1a64 abc_blocks = Returns (heap, root)
      /\ ordered_pairs heap = true
      /\ forall L n, heap !! L = Some n -> is_leaf n = true ->
          exists proof,
            generate_merkle_proof heap root (Some L) = Returns proof
            /\ verify fnv1a64 heap root (Some L) proof = Returns true.
Proof.
  assert (1 <= size abc_blocks <= 2 ^ 30)%Z as H by (vm_compute; split; discriminate).
  split; [exact H|].
  eexists _, _. split; [vm_compute; reflexivity|]. split; [vm_compute; reflexivity|].
  apply (ordered_tree_round_trip fnv1a64 abc_blocks _ _ H);
    vm_compute; reflexivity.
Defined.

Lemma sibling_proofs_agree_witness :
  generate_merkle_proof small_store (Some 2) (Some 0) = Returns ["2"%string]
  /\ generate_merkle_proof small_store (Some 2) (Some 1) = Returns ["1"%string]
  /\ head ["2"%string] = Some (hash leaf_two)
  /\ head ["1"%string] = Some (hash leaf_one)
  /\ tail ["2"%string] = tail ["1"%string]
  /\ verify fnv1a64 small_store (Some 2) (Some 0) ["2"%string]
     = verify fnv1a64 small_store (Some 2) (Some 1) ["1"%string].
Proof.
  split; [reflexivity|]. split; [reflexivity|].
  exact (sibling_proofs_agree fnv1a64 small_store 2 0 1 2 root_one_two leaf_one
           leaf_two root_one_two ["2"%string] ["1"%string]
           eq_refl eq_refl eq_refl eq_refl eq_refl eq_refl eq_refl eq_refl
           ltac:(discriminate) eq_refl eq_refl).
Defined.

Lemma proof_for_every_node_witness :
  (1 <= size abc_blocks <= 2 ^ 30)%Z
  /\ exists (k : nat) (padded : list string) (heap : store) (root : nat),
      pad_loop (length abc_blocks) abc_blocks = Returns padded
      /\ length padded = 2 ^ k
      /\ build_merkle_tree fnv1a64 abc_blocks = Returns (heap, Some root)
      /\ (forall x n, heap !! x = Some n ->
           exists proof,
             generate_merkle_proof heap (Some root) (Some x) = Returns proof
             /\ length proof <= k
             /\ ancestor heap (length proof) x = Some root)
      /\ generate_merkle_proof heap (Some root) (Some root) = Returns [].
Proof.
  assert (1 <= size abc_blocks <= 2 ^ 30)%Z as H by (vm_compute; split; discriminate).
  split; [exact H | exact (proof_for_every_node fnv1a64 abc_blocks H)].
Defined.

Lemma displayTree_perfect_witness :
  is_perfect small_store 1 (Some 2) = true
  /\ displayTree small_store None 0 = Returns []
  /\ exists n lines,
      small_store !! 2 = Some n
      /\ displayTree small_store (Some 2) 0 = Returns lines
      /\ length lines = 2 ^ 2 - 1
      /\ head lines = Some (tree_line 0 (hash n))
      /\ filter (fun line => indented (Z.to_nat 0 + 1) line = true) lines
         = tree_line (0 + Z.of_nat 1) <$> frontier small_store 1 (Some 2).
Proof.
  split; [reflexivity|].
  exact (displayTree_perfect small_store 1 2 0%Z eq_refl
           ltac:(discriminate) ltac:(discriminate)).
Defined.

Lemma displayTree_built_witness :
  (1 <= size abc_blocks <= 2 ^ 30)%Z
  /\ exists (k : nat) (padded : list string) (heap : store) (root : nat)
            (rn : MerkleNode) (lines : list string),
      pad_loop (length abc_blocks) abc_blocks = Returns padded
      /\ length padded = 2 ^ k
      /\ build_merkle_tree fnv1a64 abc_blocks = Returns (heap, Some root)
      /\ heap !! root = Some rn
      /\ displayTree heap (Some root) 0 = Returns lines
      /\ length lines = length heap
      /\ head lines = Some ("|-- " +:+ hash rn)
      /\ filter (fun line => indented k line = true) lines
         = (fun b => tree_line (Z.of_nat k) (simple_hash fnv1a64 b)) <$> padded.
Proof.
  assert (1 <= size abc_blocks <= 2 ^ 30)%Z as H by (vm_compute; split; discriminate).
  split; [exact H | exact (displayTree_built fnv1a64 abc_blocks H)].
Defined.

Lemma resplit_entry_accepted_witness :
  resplit_store !! 2 = Some root_12_121
  /\ resplit_store !! 1 = Some leaf_121
  /\ hash root_12_121 = combine_hashes fnv1a64 "12" "121"
  /\ verify fnv1a64 resplit_store (Some 2) (Some 1) ["12"%string] = Returns true
  /\ verify fnv1a64 resplit_store (Some 2) (Some 1) ["21"%string] = Returns true.
Proof.
  split; [reflexivity|]. split; [reflexivity|]. split; [reflexivity|]. split.
  - exact (resplit_entry_accepted fnv1a64 resplit_store 2 1 root_12_121 leaf_121
             "12" "121" "12" eq_refl eq_refl eq_refl eq_refl).
  - exact (resplit_entry_accepted fnv1a64 resplit_store 2 1 root_12_121 leaf_121
             "12" "121" "21" eq_refl eq_refl eq_refl eq_refl).
Defined.
